(** * Batch lineage: the lineage map and the reconstruction of ancestry paths

    A shallow embedding of [Batch_history.py]: the class [BatchHistory], which
    folds the rows of a table of (FROM Batch, TO Batch) pairs into a
    dictionary, and the class [ReconstructPaths], which expands that
    dictionary into a graph per target batch and enumerates the paths from
    every source batch to the target.

    Python dictionaries are finite maps over strings ([gmap string _]): the
    code only tests membership, reads and writes keys, and copies the key
    set, so the insertion order of keys is not observable here.  Python
    lists are lists.  The mutable attributes of a [ReconstructPaths]
    instance are the fields of a record threaded through the methods. *)

From stdpp Require Import base option list strings gmap sets relations.

Local Open Scope string_scope.
Local Open Scope list_scope.

(** ** Outcomes of a method

    A call returns, raises, or is still recursing when the depth bound
    [fuel] of the model is used up.  [OutOfFuel] stands for a recursion that
    has not come back within the allowed depth; the interpreter's own
    recursion limit is not part of the model. *)

Inductive exn : Type :=
  | KeyError (k : string)
  | IndexError.

Inductive result (A : Type) : Type :=
  | Ok (a : A)
  | Raise (e : exn)
  | OutOfFuel.

Arguments Ok {A} a.
Arguments Raise {A} e.
Arguments OutOfFuel {A}.

#[global] Instance result_ret : MRet result := λ A a, Ok a.
#[global] Instance result_bind : MBind result := λ A B f r,
  match r with
  | Ok a => f a
  | Raise e => Raise e
  | OutOfFuel => OutOfFuel
  end.

(** [for x in l: body], the loop state passed along; an exception or a
    recursion that does not come back ends the loop. *)
Definition for_each {A S : Type} (body : A → S → result S)
  : list A → S → result S :=
  fix go (l : list A) (s : S) : result S :=
    match l with
    | [] => Ok s
    | x :: l' => s' ← body x s; go l' s'
    end.

(** [path.pop()]: raises on the empty list. *)
Definition pop {A : Type} (l : list A) : result (list A) :=
  match l with
  | [] => Raise IndexError
  | _ :: _ => Ok (removelast l)
  end.

(** ** Logging

    The records handed to a [logging] logger, in order.  Whether a handler
    prints a record depends on the level configured in [Logging.Logger];
    the model keeps the calls. *)

Inductive level : Type := DEBUG | INFO | WARNING | ERROR | CRITICAL.

Definition log_record : Type := level * string.

(** ** class BatchHistory *)

Module BatchHistory.

(** A row of the data frame, with its two columns. *)
Record row : Type := Row { FROM_Batch : string; TO_Batch : string }.

Definition update_to_batch_dict (r : row)
    (batch_dict : gmap string (list string)) : gmap string (list string) :=
  let from_batch := FROM_Batch r in
  let to_batch := TO_Batch r in
  match batch_dict !! to_batch with
  | None => <[to_batch := [from_batch]]> batch_dict
  | Some from_batch_list =>
      if decide (from_batch ∈ from_batch_list) then batch_dict
      else <[to_batch := from_batch_list ++ [from_batch]]> batch_dict
  end.

(** [for index, row in df.iterrows()], from the empty dictionary. *)
Definition apply (df : list row) : gmap string (list string) :=
  foldl (λ batch_dict r, update_to_batch_dict r batch_dict) ∅ df.

End BatchHistory.

(** ** class ReconstructPaths *)

Module ReconstructPaths.

Record t : Type := Self {
  edges : gmap string (list string);
  paths : list (list string);
  sources : list string;
  path_dictionary : gmap string (list (list string));
  logger : list log_record
}.

Definition set_edges (e : gmap string (list string)) (self : t) : t :=
  Self e (paths self) (sources self) (path_dictionary self) (logger self).
Definition set_paths (p : list (list string)) (self : t) : t :=
  Self (edges self) p (sources self) (path_dictionary self) (logger self).
Definition set_sources (s : list string) (self : t) : t :=
  Self (edges self) (paths self) s (path_dictionary self) (logger self).
Definition set_path_dictionary (d : gmap string (list (list string)))
    (self : t) : t :=
  Self (edges self) (paths self) (sources self) d (logger self).
Definition log (lv : level) (msg : string) (self : t) : t :=
  Self (edges self) (paths self) (sources self) (path_dictionary self)
       (logger self ++ [(lv, msg)]).

(** [__init__]: the class attributes [edges], [paths], [sources] start
    empty, and so does the instance's [path_dictionary]. *)
Definition init : t :=
  Self ∅ [] [] ∅ [(INFO, "Reconstructing Paths")].

Definition add_edge (u : string) (v : option string)
    (edges : gmap string (list string)) : gmap string (list string) :=
  match v with
  | None => <[u := []]> edges
  | Some v =>
      match edges !! u with
      | Some l => if decide (v ∈ l) then edges else <[u := l ++ [v]]> edges
      | None => <[u := [v]]> edges
      end
  end.

Definition not_found (to_batch : string) : string :=
  String.append to_batch " not found in the Batch dictionary.".

Fixpoint add_edges (fuel : nat) (batch_dict : gmap string (list string))
    (to_batch : string) (self : t) : result t :=
  match fuel with
  | O => OutOfFuel
  | S fuel =>
      match batch_dict !! to_batch with
      | Some from_batch_list =>
          for_each (λ from_batch self,
            let self :=
              set_edges (add_edge from_batch (Some to_batch) (edges self))
                        self in
            if decide (is_Some (batch_dict !! from_batch))
            then add_edges fuel batch_dict from_batch self
            else Ok (set_sources (sources self ++ [from_batch]) self))
            from_batch_list self
      | None => Ok (log ERROR (not_found to_batch) self)
      end
  end.

(** The dictionary [visited] and the list [path] are shared with the
    caller and changed in place, so they are returned next to [self]. *)
Definition dfs_state : Type := gmap string bool * list string * t.

Fixpoint determine_all_paths_util (fuel : nat) (u d : string)
    (visited : gmap string bool) (path : list string)
    (edges : gmap string (list string)) (self : t) : result dfs_state :=
  match fuel with
  | O => OutOfFuel
  | S fuel =>
      let visited := <[u := true]> visited in
      let path := path ++ [u] in
      '(visited, path, self) ←
        (if decide (u = d) then
           if decide (path ∈ paths self) then Ok (visited, path, self)
           else Ok (visited, path, set_paths (paths self ++ [path]) self)
         else
           match edges !! u with
           | None => Raise (KeyError u)
           | Some adjacent =>
               for_each (λ i '(visited, path, self),
                 match visited !! i with
                 | None => Raise (KeyError i)
                 | Some true => Ok (visited, path, self)
                 | Some false =>
                     determine_all_paths_util fuel i d visited path edges
                                              self
                 end) adjacent (visited, path, self)
           end);
      path ← pop path;
      Ok (<[u := false]> visited, path, self)
  end.

Definition determine_all_paths (fuel : nat) (s d : string)
    (edges : gmap string (list string)) (self : t) : result t :=
  let visited : gmap string bool := (λ _, false) <$> edges in
  let path : list string := [] in
  '(_, _, self) ← determine_all_paths_util fuel s d visited path edges self;
  Ok self.

(** The first half of the loop body of [apply]: the three attributes are
    reset, the target becomes a node without neighbours, and the edges
    are added. *)
Definition expand (fuel : nat) (batch_dict : gmap string (list string))
    (to_batch : string) (self : t) : result t :=
  let self := set_edges ∅ self in
  let self := set_paths [] self in
  let self := set_sources [] self in
  let self := set_edges (add_edge to_batch None (edges self)) self in
  add_edges fuel batch_dict to_batch self.

(** The loop body of [apply] for one target.  The last statement stores
    the list [self.paths] itself under the target.  Inside [apply] the
    attribute is bound to a new list before anything is appended again, so
    what is stored stays as it is, and the record keeps a copy.  A search
    called on the instance from outside [apply], after [apply], appends to
    that same list; the record does not follow that, and nothing below is
    stated about [path_dictionary] after such a call. *)
Definition apply_one (fuel : nat) (batch_dict : gmap string (list string))
    (to_batch : string) (self : t) : result t :=
  self ← expand fuel batch_dict to_batch self;
  self ← for_each (λ source self,
            determine_all_paths fuel source to_batch (edges self) self)
          (sources self) self;
  Ok (set_path_dictionary
        (<[to_batch := paths self]> (path_dictionary self)) self).

(** [apply] returns the instance's own [path_dictionary]; the pair holds
    the instance after the call and the returned dictionary. *)
Definition apply (fuel : nat) (batch_dict : gmap string (list string))
    (to_batch_list : list string) (self : t)
    : result (t * gmap string (list (list string))) :=
  self ← for_each (apply_one fuel batch_dict) to_batch_list self;
  let self := log INFO "Finished reconstructing paths." self in
  Ok (self, path_dictionary self).

End ReconstructPaths.

Import ReconstructPaths.

(** ** Vocabulary of the statements *)

(** The outcome of a call, by cases: what holds of a returned value, which
    exceptions may be raised, and whether the depth bound may be used up. *)
Definition outcome {A : Type} (Q : A → Prop) (E : exn → Prop) (D : Prop)
    (r : result A) : Prop :=
  match r with
  | Ok a => Q a
  | Raise e => E e
  | OutOfFuel => D
  end.

(** Two calls end the same way, with related values when both return. *)
Definition same_outcome {A B : Type} (R : A → B → Prop)
    (r1 : result A) (r2 : result B) : Prop :=
  match r1, r2 with
  | Ok a, Ok b => R a b
  | Raise e1, Raise e2 => e1 = e2
  | OutOfFuel, OutOfFuel => True
  | _, _ => False
  end.

(** The from-batches of the rows written for [to_batch], in row order. *)
Definition froms_of (to_batch : string) (df : list BatchHistory.row)
    : list string :=
  BatchHistory.FROM_Batch
    <$> filter (λ r, BatchHistory.TO_Batch r = to_batch) df.

(** The entries of a list, each kept where it is seen first. *)
Fixpoint first_seen (l : list string) : list string :=
  match l with
  | [] => []
  | x :: l => x :: filter (λ y, y ≠ x) (first_seen l)
  end.

(** [derived_from m x y]: the lineage map lists [y] among the batches that
    [x] was produced from. *)
Definition derived_from (batch_dict : gmap string (list string))
    (x y : string) : Prop :=
  ∃ l, batch_dict !! x = Some l ∧ y ∈ l.

Definition acyclic (batch_dict : gmap string (list string)) : Prop :=
  ∀ x, ¬ tc (derived_from batch_dict) x x.

(** Every neighbour named in the graph is a node of the graph. *)
Definition closed (edges : gmap string (list string)) : Prop :=
  ∀ u l v, edges !! u = Some l → v ∈ l → is_Some (edges !! v).

(** The nodes of [visited] that are marked as not visited. *)
Definition unvisited (visited : gmap string bool) : gmap string bool :=
  filter (λ kv, kv.2 = false) visited.

(** A list of paths with the sequences of [found] entered in turn, each
    unless it is there already. *)
Definition add_path (ps : list (list string)) (p : list string)
    : list (list string) :=
  if decide (p ∈ ps) then ps else ps ++ [p].

Definition add_paths (ps found : list (list string)) : list (list string) :=
  foldl add_path ps found.

(** Two instances that agree on the attributes the traversal works on. *)
Definition same_traversal (a b : t) : Prop :=
  edges a = edges b ∧ paths a = paths b ∧ sources a = sources b.

(** The neighbours listed for a node; none when it is not a node. *)
Definition neighbours (g : gmap string (list string)) (u : string)
    : list string :=
  default [] (g !! u).

(** Every entry of the list stands in [E] to the entry after it. *)
Fixpoint linked (E : string → string → Prop) (p : list string) : Prop :=
  match p with
  | x :: p' =>
      match p' with
      | y :: _ => E x y ∧ linked E p'
      | [] => True
      end
  | [] => True
  end.

(** A walk along the edges of the graph. *)
Definition graph_path (g : gmap string (list string)) (p : list string)
    : Prop :=
  linked (λ x y, y ∈ neighbours g x) p.

(** Each batch of the list is among those the next one was produced from. *)
Definition lineage_chain (m : gmap string (list string)) (p : list string)
    : Prop :=
  linked (λ x y, derived_from m y x) p.

(** A walk to [d] without a repeated node whose nodes after the first are
    marked as not visited. *)
Definition search_path (g : gmap string (list string)) (d : string)
    (visited : gmap string bool) (p : list string) : Prop :=
  last p = Some d ∧ graph_path g p ∧ NoDup p
  ∧ ∀ x, x ∈ tail p → visited !! x = Some false.

(** An ancestry of [t0]: a chain of at least two batches that ends at [t0]
    and starts at a batch without an entry in the lineage map. *)
Definition ancestry (m : gmap string (list string)) (t0 : string)
    (q : list string) : Prop :=
  ∃ s w, q = s :: w ∧ w ≠ [] ∧ m !! s = None ∧ last q = Some t0
         ∧ lineage_chain m q.


(** The error records for the targets that the lineage map does not know,
    in the order of the targets. *)
Definition error_records (m : gmap string (list string))
    (targets : list string) : list log_record :=
  (λ t0, (ERROR, not_found t0)) <$> filter (λ t0, m !! t0 = None) targets.

(** ** The worked examples *)

Definition diamond : list BatchHistory.row :=
  [BatchHistory.Row "A" "B"; BatchHistory.Row "A" "C";
   BatchHistory.Row "B" "D"; BatchHistory.Row "C" "D"].

(** The graph that the expansion for D builds from the diamond. *)
Definition diamond_graph : gmap string (list string) :=
  <["A" := ["B"; "C"]]> (<["C" := ["D"]]> (<["B" := ["D"]]> {["D" := []]})).

(** A rank that goes down along every edge of the diamond. *)
Definition diamond_rank (s : string) : nat :=
  if decide (s = "A") then 0 else if decide (s = "D") then 2 else 1.

(** Two batches, each listed as produced from the other. *)
Definition ring : gmap string (list string) :=
  <["A" := ["B"]]> {["B" := ["A"]]}.

(** The diamond with a ring of two batches next to it. *)
Definition diamond_and_ring : list BatchHistory.row :=
  diamond ++ [BatchHistory.Row "X" "Y"; BatchHistory.Row "Y" "X"].

(** ** Outcomes and loops *)

Lemma bind_Ok {A B : Type} (r : result A) (f : A → result B) (b : B) :
  r ≫= f = Ok b ↔ ∃ a, r = Ok a ∧ f a = Ok b.
Proof.
  destruct r as [a| |]; simpl; split; try (intros (? & ? & ?)); try done.
  - intros H. by exists a.
  - by simplify_eq.
Qed.

Lemma outcome_mono {A : Type} (Q Q' : A → Prop) (E E' : exn → Prop)
    (D D' : Prop) (r : result A) :
  outcome Q E D r →
  (∀ a, Q a → Q' a) → (∀ e, E e → E' e) → (D → D') →
  outcome Q' E' D' r.
Proof. destruct r; simpl; auto. Qed.

Lemma outcome_bind {A B : Type} (Q : A → Prop) (Q' : B → Prop)
    (E : exn → Prop) (D : Prop) (r : result A) (f : A → result B) :
  outcome Q E D r →
  (∀ a, Q a → outcome Q' E D (f a)) →
  outcome Q' E D (r ≫= f).
Proof. destruct r; simpl; auto. Qed.

Lemma outcome_Ok {A : Type} (Q : A → Prop) (E : exn → Prop) (D : Prop)
    (r : result A) (a : A) :
  outcome Q E D r → r = Ok a → Q a.
Proof. by intros H ->. Qed.

Lemma for_each_cons {A S : Type} (body : A → S → result S) x l s :
  for_each body (x :: l) s = body x s ≫= for_each body l.
Proof. reflexivity. Qed.

Lemma for_each_app {A S : Type} (body : A → S → result S) l1 l2 s :
  for_each body (l1 ++ l2) s = for_each body l1 s ≫= for_each body l2.
Proof.
  revert s. induction l1 as [|x l1 IH]; intros s; [done|].
  rewrite <- app_comm_cons, !for_each_cons.
  destruct (body x s) as [s'| |]; simpl; [apply IH|done|done].
Qed.

(** The invariant rule of the loop. *)
Lemma for_each_outcome {A S : Type} (I : S → Prop) (E : exn → Prop)
    (D : Prop) (body : A → S → result S) (l : list A) (s : S) :
  I s →
  (∀ x s, x ∈ l → I s → outcome I E D (body x s)) →
  outcome I E D (for_each body l s).
Proof.
  revert s. induction l as [|x l IH]; intros s Hs Hbody; [done|].
  rewrite for_each_cons. eapply outcome_bind.
  - apply Hbody; [left|done].
  - intros s' Hs'. apply IH; [done|].
    intros y s'' Hy. apply Hbody. by right.
Qed.

(** Two loops over the same list, their states related. *)
Lemma for_each_same {A S1 S2 : Type} (R : S1 → S2 → Prop)
    (body1 : A → S1 → result S1) (body2 : A → S2 → result S2)
    (l : list A) (s1 : S1) (s2 : S2) :
  R s1 s2 →
  (∀ x s1 s2, x ∈ l → R s1 s2 → same_outcome R (body1 x s1) (body2 x s2)) →
  same_outcome R (for_each body1 l s1) (for_each body2 l s2).
Proof.
  revert s1 s2. induction l as [|x l IH]; intros s1 s2 Hs Hbody; [done|].
  rewrite !for_each_cons.
  pose proof (Hbody x s1 s2 ltac:(left) Hs) as Hx.
  destruct (body1 x s1), (body2 x s2); simpl in *; try done.
  apply IH; [done|]. intros y ? ? Hy. apply Hbody. by right.
Qed.

(** A loop whose body does not come back at one element, and raises at
    none, does not come back. *)
Lemma for_each_stuck {A S : Type} (body : A → S → result S) (l : list A)
    (x : A) :
  x ∈ l →
  (∀ s, body x s = OutOfFuel) →
  (∀ y s e, y ∈ l → body y s ≠ Raise e) →
  ∀ s, for_each body l s = OutOfFuel.
Proof.
  induction l as [|y l IH]; intros Hx Hstuck Hraise s.
  - by apply elem_of_nil in Hx.
  - rewrite for_each_cons.
    apply elem_of_cons in Hx as [->|Hx]; [by rewrite Hstuck|].
    destruct (body y s) as [s'|e|] eqn:Hy; simpl; [|exfalso|done].
    + apply IH; [done|done|].
      intros z ? ? Hz. apply Hraise. by right.
    + eapply Hraise; [|exact Hy]. left.
Qed.

(** ** The lineage map *)

Lemma first_seen_elem (l : list string) (x : string) :
  x ∈ first_seen l ↔ x ∈ l.
Proof.
  induction l as [|y l IH]; simpl; [done|].
  rewrite !elem_of_cons, list_elem_of_filter, IH.
  destruct (decide (x = y)); intuition congruence.
Qed.

Lemma first_seen_NoDup (l : list string) : NoDup (first_seen l).
Proof.
  induction l as [|y l IH]; simpl; [constructor|].
  constructor.
  - rewrite list_elem_of_filter. intros [Hne _]. by apply Hne.
  - by apply NoDup_filter.
Qed.

Lemma first_seen_snoc (l : list string) (x : string) :
  first_seen (l ++ [x])
  = if decide (x ∈ l) then first_seen l else first_seen l ++ [x].
Proof.
  induction l as [|y l IH]; simpl.
  - done.
  - rewrite IH. destruct (decide (x ∈ l)) as [Hin|Hin].
    + rewrite decide_True by (by right). done.
    + rewrite filter_app. destruct (decide (x = y)) as [->|Hne].
      * rewrite decide_True by left. simpl.
        rewrite filter_cons_False by (intros Hne; by apply Hne).
        by rewrite filter_nil, app_nil_r.
      * rewrite decide_False by (rewrite elem_of_cons; intuition congruence).
        by rewrite filter_cons_True by done.
Qed.

Lemma froms_of_snoc (to_batch : string) (df : list BatchHistory.row)
    (r : BatchHistory.row) :
  froms_of to_batch (df ++ [r])
  = froms_of to_batch df
    ++ (if decide (BatchHistory.TO_Batch r = to_batch)
        then [BatchHistory.FROM_Batch r] else []).
Proof.
  unfold froms_of. rewrite filter_app, fmap_app. f_equal.
  destruct (decide (BatchHistory.TO_Batch r = to_batch)).
  - by rewrite filter_cons_True by done.
  - by rewrite filter_cons_False by done.
Qed.

Lemma BatchHistory_apply_snoc (df : list BatchHistory.row)
    (r : BatchHistory.row) :
  BatchHistory.apply (df ++ [r])
  = BatchHistory.update_to_batch_dict r (BatchHistory.apply df).
Proof. unfold BatchHistory.apply. by rewrite foldl_app. Qed.

(** What the dictionary holds under a key after all rows are merged. *)
Lemma BatchHistory_apply_lookup (df : list BatchHistory.row)
    (to_batch : string) :
  BatchHistory.apply df !! to_batch
  = match froms_of to_batch df with
    | [] => None
    | x :: l => Some (first_seen (x :: l))
    end.
Proof.
  induction df as [|r df IH] using rev_ind; [done|].
  rewrite BatchHistory_apply_snoc, froms_of_snoc.
  unfold BatchHistory.update_to_batch_dict.
  destruct (decide (BatchHistory.TO_Batch r = to_batch)) as [<-|Hne].
  - rewrite IH.
    destruct (froms_of (BatchHistory.TO_Batch r) df) as [|x l] eqn:Hfr.
    + simpl. by rewrite lookup_insert_eq.
    + rewrite <- app_comm_cons.
      change (x :: (l ++ [BatchHistory.FROM_Batch r]))
        with ((x :: l) ++ [BatchHistory.FROM_Batch r]).
      rewrite first_seen_snoc.
      destruct (decide (BatchHistory.FROM_Batch r ∈ first_seen (x :: l)))
        as [Hin|Hin].
      * rewrite decide_True by (by apply first_seen_elem).
        exact IH.
      * rewrite decide_False by (by rewrite <- first_seen_elem).
        by rewrite lookup_insert_eq.
  - rewrite app_nil_r.
    destruct (BatchHistory.apply df !! BatchHistory.TO_Batch r) as [fl|].
    + destruct (decide (BatchHistory.FROM_Batch r ∈ fl)); [done|].
      by rewrite lookup_insert_ne.
    + by rewrite lookup_insert_ne.
Qed.

Lemma update_to_batch_dict_twice (r : BatchHistory.row)
    (batch_dict : gmap string (list string)) :
  BatchHistory.update_to_batch_dict r
    (BatchHistory.update_to_batch_dict r batch_dict)
  = BatchHistory.update_to_batch_dict r batch_dict.
Proof.
  unfold BatchHistory.update_to_batch_dict.
  destruct (batch_dict !! BatchHistory.TO_Batch r) as [fl|] eqn:Hl.
  - destruct (decide (BatchHistory.FROM_Batch r ∈ fl)) as [Hin|Hin].
    + rewrite Hl. by rewrite decide_True.
    + rewrite lookup_insert_eq.
      rewrite decide_True; [done|]. apply elem_of_app. right. left.
  - rewrite lookup_insert_eq. rewrite decide_True; [done|left].
Qed.

Lemma update_to_batch_dict_seen (df1 df2 : list BatchHistory.row)
    (r : BatchHistory.row) :
  BatchHistory.apply (df1 ++ r :: df2 ++ [r])
  = BatchHistory.apply (df1 ++ r :: df2).
Proof.
  change (df1 ++ r :: df2 ++ [r]) with (df1 ++ (r :: df2) ++ [r]).
  rewrite app_assoc, BatchHistory_apply_snoc.
  unfold BatchHistory.update_to_batch_dict.
  rewrite BatchHistory_apply_lookup.
  assert (BatchHistory.FROM_Batch r
          ∈ froms_of (BatchHistory.TO_Batch r) (df1 ++ r :: df2)) as Hin.
  { unfold froms_of. apply list_elem_of_fmap. exists r. split; [done|].
    apply list_elem_of_filter. split; [done|].
    apply elem_of_app. right. left. }
  destruct (froms_of (BatchHistory.TO_Batch r) (df1 ++ r :: df2))
    as [|x l] eqn:Hfr.
  - by apply elem_of_nil in Hin.
  - rewrite decide_True; [done|]. by apply first_seen_elem.
Qed.

(** ** Adding one edge *)

Lemma add_edge_lookup_ne (u k : string) (v : option string)
    (e : gmap string (list string)) :
  u ≠ k → add_edge u v e !! k = e !! k.
Proof.
  intros Hne. unfold add_edge. destruct v as [v|].
  - destruct (e !! u) as [l|]; [destruct (decide (v ∈ l))|];
      by rewrite ?lookup_insert_ne.
  - by rewrite lookup_insert_ne.
Qed.

Lemma add_edge_lookup_eq (u v : string) (e : gmap string (list string)) :
  ∃ l, add_edge u (Some v) e !! u = Some l ∧ v ∈ l
       ∧ ∀ w, w ∈ l → w = v ∨ ∃ l0, e !! u = Some l0 ∧ w ∈ l0.
Proof.
  unfold add_edge. destruct (e !! u) as [l0|] eqn:Hu.
  - destruct (decide (v ∈ l0)) as [Hin|Hin].
    + exists l0. repeat split; [done..|]. intros w Hw. right. by exists l0.
    + exists (l0 ++ [v]). rewrite lookup_insert_eq. repeat split.
      * apply elem_of_app. right. left.
      * intros w [Hw|Hw]%elem_of_app.
        -- right. by exists l0.
        -- left. by apply list_elem_of_singleton in Hw.
  - exists [v]. rewrite lookup_insert_eq. repeat split; [left|].
    intros w Hw. left. by apply list_elem_of_singleton in Hw.
Qed.

Lemma add_edge_is_Some (u k : string) (v : option string)
    (e : gmap string (list string)) :
  is_Some (e !! k) → is_Some (add_edge u v e !! k).
Proof.
  intros Hk. destruct (decide (u = k)) as [->|Hne].
  - destruct v as [v|].
    + destruct (add_edge_lookup_eq k v e) as (l & -> & _). by eexists.
    + unfold add_edge. rewrite lookup_insert_eq. by eexists.
  - by rewrite add_edge_lookup_ne.
Qed.

Lemma add_edge_node (u v : string) (e : gmap string (list string)) :
  is_Some (add_edge u (Some v) e !! u).
Proof. destruct (add_edge_lookup_eq u v e) as (l & -> & _). by eexists. Qed.

Lemma add_edge_closed (u v : string) (e : gmap string (list string)) :
  closed e → is_Some (e !! v) → closed (add_edge u (Some v) e).
Proof.
  intros Hcl Hv k l w Hk Hw. destruct (decide (u = k)) as [->|Hne].
  - destruct (add_edge_lookup_eq k v e) as (l' & Hl' & _ & Hfrom).
    rewrite Hl' in Hk. injection Hk as ->.
    destruct (Hfrom w Hw) as [->|(l0 & Hl0 & Hw0)].
    + by apply add_edge_is_Some.
    + apply add_edge_is_Some. by eapply Hcl.
  - rewrite add_edge_lookup_ne in Hk by done.
    apply add_edge_is_Some. by eapply Hcl.
Qed.

(** ** Graph expansion *)

Arguments add_edge : simpl never.

(** [add_edges] never raises, leaves [paths] and [path_dictionary] alone,
    and removes no node. *)
Lemma add_edges_keeps (n : nat) (m : gmap string (list string)) (t0 : string)
    (self : t) :
  outcome (λ self', paths self' = paths self
                    ∧ path_dictionary self' = path_dictionary self
                    ∧ ∀ k, is_Some (edges self !! k)
                           → is_Some (edges self' !! k))
          (λ _, False) True (add_edges n m t0 self).
Proof.
  revert t0 self. induction n as [|n IH]; intros t0 self; simpl; [done|].
  destruct (m !! t0) as [l|]; [|by simpl].
  apply for_each_outcome; [done|].
  intros x s _ (Hp & Hd & Hk). simpl. case_decide.
  - eapply outcome_mono; [apply IH|simpl|done|done].
    intros s' (Hp' & Hd' & Hk'). simpl in *.
    split_and!; [congruence|congruence|].
    intros k Hin. apply Hk'. simpl. by apply add_edge_is_Some, Hk.
  - simpl. split_and!; [done|done|].
    intros k Hin. by apply add_edge_is_Some, Hk.
Qed.

Lemma add_edges_no_raise (n : nat) (m : gmap string (list string))
    (t0 : string) (self : t) (e : exn) :
  add_edges n m t0 self ≠ Raise e.
Proof.
  intros H. pose proof (add_edges_keeps n m t0 self) as Hk.
  by rewrite H in Hk.
Qed.

(** Expansion keeps the graph closed, and every source it records is a node
    of the graph without an entry in the lineage map, from which the batch
    the walk started at is derived. *)
Lemma add_edges_closed (n : nat) (m : gmap string (list string))
    (t0 : string) (self : t) :
  closed (edges self) → is_Some (edges self !! t0) →
  outcome (λ self', closed (edges self')
                    ∧ ∃ new, sources self' = sources self ++ new
                             ∧ ∀ s, s ∈ new → m !! s = None
                                              ∧ is_Some (edges self' !! s)
                                              ∧ tc (derived_from m) t0 s)
          (λ _, False) True (add_edges n m t0 self).
Proof.
  revert t0 self. induction n as [|n IH]; intros t0 self Hcl Ht; simpl; [done|].
  destruct (m !! t0) as [l|] eqn:Hl; [|simpl; split; [done|]; exists [];
    split; [by rewrite app_nil_r|by intros ? ?%elem_of_nil]].
  eapply outcome_mono; [|intros a Ha; simpl in Ha|intros ? H; exact H|done].
  - apply (for_each_outcome
      (λ s, closed (edges s) ∧ is_Some (edges s !! t0)
            ∧ ∃ new, sources s = sources self ++ new
                     ∧ ∀ x, x ∈ new → m !! x = None ∧ is_Some (edges s !! x)
                                      ∧ tc (derived_from m) t0 x)
      (λ _, False) True).
    + split_and!; [done..|]. exists [].
      split; [by rewrite app_nil_r|by intros ? ?%elem_of_nil].
    + intros x s Hx (Hcl' & Ht' & new & Hnew & Hsrc). simpl.
      assert (derived_from m t0 x) as Hstep by (by exists l).
      case_decide.
      * pose proof (add_edges_keeps n m x
          (set_edges (add_edge x (Some t0) (edges s)) s)) as Hkeep.
        pose proof (IH x (set_edges (add_edge x (Some t0) (edges s)) s)
          ltac:(by apply add_edge_closed) ltac:(apply add_edge_node)) as Hrec.
        destruct (add_edges n m x _) as [s'| |]; simpl in *; [|done|done].
        destruct Hkeep as (_ & _ & Hmono).
        destruct Hrec as (Hcl'' & new' & Hnew' & Hsrc').
        split_and!; [done|by apply Hmono, add_edge_is_Some|].
        exists (new ++ new'). split; [by rewrite Hnew', Hnew, app_assoc|].
        intros y [Hy|Hy]%elem_of_app.
        -- destruct (Hsrc y Hy) as (? & ? & ?).
           split_and!; [done| |done]. by apply Hmono, add_edge_is_Some.
        -- destruct (Hsrc' y Hy) as (? & ? & ?).
           split_and!; [done..|]. by eapply tc_l.
      * simpl. split_and!;
          [by apply add_edge_closed|by apply add_edge_is_Some|].
        exists (new ++ [x]). split; [by rewrite Hnew, app_assoc|].
        intros y [Hy|Hy]%elem_of_app.
        -- destruct (Hsrc y Hy) as (? & ? & ?).
           split_and!; [done| |done]. by apply add_edge_is_Some.
        -- apply list_elem_of_singleton in Hy as ->. split_and!.
           ++ by apply eq_None_not_Some.
           ++ apply add_edge_node.
           ++ by apply tc_once.
  - destruct Ha as (? & _ & ?). done.
Qed.

(** Expansion from [t0] only touches the adjacency lists of batches that
    [t0] is derived from, directly or through other batches. *)
Lemma add_edges_frame (n : nat) (m : gmap string (list string)) (t0 : string)
    (self : t) :
  outcome (λ self', ∀ k, ¬ tc (derived_from m) t0 k
                         → edges self' !! k = edges self !! k)
          (λ _, True) True (add_edges n m t0 self).
Proof.
  revert t0 self. induction n as [|n IH]; intros t0 self; simpl; [done|].
  destruct (m !! t0) as [l|] eqn:Hl; [|by simpl].
  apply for_each_outcome; [done|].
  intros x s Hx Hs. simpl.
  assert (derived_from m t0 x) as Hstep by (by exists l).
  assert (∀ k, ¬ tc (derived_from m) t0 k
               → add_edge x (Some t0) (edges s) !! k = edges self !! k)
    as Hs'.
  { intros k Hk. rewrite add_edge_lookup_ne; [by apply Hs|].
    intros <-. apply Hk. by apply tc_once. }
  case_decide; [|done].
  eapply outcome_mono; [apply IH|simpl|done|done].
  intros s' Hrec k Hk. rewrite Hrec; [by apply Hs'|].
  intros Hxk. apply Hk. by eapply tc_l.
Qed.

Lemma derived_from_key (m : gmap string (list string)) (x y : string) :
  tc (derived_from m) x y → is_Some (m !! x).
Proof. intros [? ? (l & Hl & _)|? ? ? (l & Hl & _) _]; by exists l. Qed.

(** When the backward walk from [t0] can reach a batch that is derived
    from itself, the expansion does not come back, whatever the depth. *)
Lemma add_edges_cycle (m : gmap string (list string)) (c : string) :
  tc (derived_from m) c c →
  ∀ n t0 self, rtc (derived_from m) t0 c → add_edges n m t0 self = OutOfFuel.
Proof.
  intros Hc. induction n as [|n IH]; intros t0 self Hreach; simpl; [done|].
  assert (∃ x, derived_from m t0 x ∧ rtc (derived_from m) x c)
    as (x & (l & Hl & Hx) & Hxc).
  { apply rtc_inv in Hreach as [->|Hstep]; [|done].
    inversion Hc as [? ? Hstep|? y ? Hstep Hrest]; simplify_eq.
    - exists c. split; [done|apply rtc_refl].
    - exists y. split; [done|by apply tc_rtc]. }
  rewrite Hl. apply for_each_stuck with (x := x); [done| |].
  - intros s. simpl. rewrite decide_True; [by apply IH|].
    apply (derived_from_key m x c). by eapply tc_rtc_l.
  - intros y s e _. simpl. case_decide; [apply add_edges_no_raise|done].
Qed.

(** With an acyclic lineage map the depth of the backward walk is bounded
    by the number of keys that are not yet on the way from the target. *)
Lemma add_edges_returns (m : gmap string (list string)) :
  acyclic m →
  ∀ n t0 (seen : gset string) self,
    t0 ∈ seen →
    (∀ p, p ∈ seen → rtc (derived_from m) p t0) →
    size (dom m ∖ seen) < n →
    outcome (λ _, True) (λ _, False) False (add_edges n m t0 self).
Proof.
  intros Hac. induction n as [|n IH]; intros t0 seen self Ht Hseen Hsize;
    [lia|]. simpl.
  destruct (m !! t0) as [l|] eqn:Hl; [|by simpl].
  apply for_each_outcome; [done|].
  intros x s Hx _. simpl. case_decide as Hkey; [|done].
  assert (derived_from m t0 x) as Hstep by (by exists l).
  assert (x ∉ seen) as Hfresh.
  { intros Hin. apply (Hac x). eapply tc_rtc_l; [by apply Hseen|].
    by apply tc_once. }
  apply (IH x (seen ∪ {[x]})).
  - set_solver.
  - intros p [Hp| ->%elem_of_singleton]%elem_of_union; [|apply rtc_refl].
    eapply rtc_r; [by apply Hseen|done].
  - assert (dom m ∖ (seen ∪ {[x]}) ⊂ dom m ∖ seen) as Hlt.
    { apply elem_of_dom in Hkey. set_solver. }
    apply subset_size in Hlt. lia.
Qed.

(** A call that has come back comes back with the same value at any
    greater depth bound. *)
Lemma for_each_Ok_mono {A S : Type} (body body' : A → S → result S)
    (l : list A) (s r : S) :
  (∀ x s r, x ∈ l → body x s = Ok r → body' x s = Ok r) →
  for_each body l s = Ok r → for_each body' l s = Ok r.
Proof.
  revert s. induction l as [|x l IH]; intros s Hbody; [done|].
  rewrite !for_each_cons. intros (s' & Hx & Hrest)%bind_Ok.
  rewrite (Hbody x s s'); [|left|done]. simpl.
  apply IH; [|done]. intros y ? ? Hy. apply Hbody. by right.
Qed.

Lemma add_edges_fuel_mono (m : gmap string (list string)) (n n' : nat)
    (t0 : string) (self r : t) :
  (n ≤ n')%nat →
  add_edges n m t0 self = Ok r → add_edges n' m t0 self = Ok r.
Proof.
  revert n' t0 self r. induction n as [|n IH]; intros n' t0 self r Hle; [done|].
  destruct n' as [|n']; [lia|]. simpl.
  destruct (m !! t0) as [l|]; [|done].
  apply for_each_Ok_mono. intros x s r' _. simpl.
  case_decide; [|done]. apply IH. lia.
Qed.

(** ** Path enumeration *)

Lemma pop_snoc {A : Type} (l : list A) (x : A) : pop (l ++ [x]) = Ok l.
Proof.
  unfold pop. destruct (l ++ [x]) as [|y l'] eqn:Heq.
  - by destruct l.
  - by rewrite <- Heq, removelast_last.
Qed.

Lemma unvisited_mark (visited : gmap string bool) (i : string) :
  visited !! i = Some false →
  S (size (unvisited (<[i := true]> visited))) = size (unvisited visited).
Proof.
  intros Hi. unfold unvisited.
  rewrite map_filter_insert_False by done.
  rewrite map_filter_delete, map_size_delete_Some.
  - assert (size (filter (λ kv : string * bool, kv.2 = false) visited) ≠ 0)
      as Hne; [|lia].
    apply map_size_ne_0_lookup. exists i, false.
    by apply map_lookup_filter_Some.
  - exists false. by apply map_lookup_filter_Some.
Qed.

Lemma unvisited_start (g : gmap string (list string)) (s : string) :
  (size (unvisited (<[s := true]> ((λ _, false) <$> g))) ≤ size g)%nat.
Proof.
  unfold unvisited. rewrite map_filter_insert_False by done.
  etrans; [apply map_size_filter|].
  rewrite map_size_delete, <- (map_size_fmap (λ _, false) g).
  destruct (((λ _, false) <$> g) !! s); simpl; lia.
Qed.

(** One call of the depth-first search.  When it returns, [visited] has
    the entry of [u] cleared and is otherwise as before, [path] is as
    before, and the instance differs in [paths] only, where no sequence is
    entered twice.  It raises only if a neighbour is not a node of the
    graph, and it uses up the depth bound only if that bound is not above
    the number of nodes not yet visited. *)
Lemma determine_all_paths_util_outcome (n : nat) (u d : string)
    (visited : gmap string bool) (path : list string)
    (g : gmap string (list string)) (self : t) :
  outcome (λ '(visited', path', self'),
             visited' = <[u := false]> visited ∧ path' = path
             ∧ self' = set_paths (paths self') self
             ∧ (NoDup (paths self) → NoDup (paths self')))
          (λ _, ¬ (closed g ∧ dom visited = dom g ∧ is_Some (g !! u)))
          (¬ size (unvisited (<[u := true]> visited)) < n)
          (determine_all_paths_util n u d visited path g self).
Proof.
  revert u visited path self.
  induction n as [|n IH]; intros u visited path self; simpl; [lia|].
  eapply (outcome_bind
    (λ '(visited', path', self'),
       visited' = <[u := true]> visited ∧ path' = path ++ [u]
       ∧ self' = set_paths (paths self') self
       ∧ (NoDup (paths self) → NoDup (paths self')))).
  - case_decide as Hud.
    + case_decide as Hin; simpl; split_and!; try done.
      * by destruct self.
      * intros Hnd. apply NoDup_app. split_and!; [done| |apply NoDup_singleton].
        intros p Hp ->%list_elem_of_singleton. done.
    + destruct (g !! u) as [adjacent|] eqn:Hu; simpl.
      * apply for_each_outcome; [by destruct self|].
        intros i [[v p] s] Hi (-> & -> & Hs & Hnd).
        destruct (<[u:=true]> visited !! i) as [[|]|] eqn:Hvi; simpl.
        -- done.
        -- eapply outcome_mono; [apply IH| | |].
           ++ intros [[v' p'] s'] (-> & -> & Hs' & Hnd').
              split_and!; [by apply insert_id|done| |by auto].
              rewrite Hs', Hs. by destruct self.
           ++ intros e Hbad (Hcl & Hdom & _). apply Hbad. split_and!.
              ** done.
              ** rewrite dom_insert_L, Hdom.
                 assert (u ∈ dom g) by (apply elem_of_dom; by rewrite Hu).
                 set_solver.
              ** by eapply Hcl.
           ++ intros Hbad Hlt. apply Hbad.
              apply unvisited_mark in Hvi. lia.
        -- intros (Hcl & Hdom & _).
           assert (i ∈ dom (<[u:=true]> visited)) as Hdi.
           { rewrite dom_insert_L, Hdom. apply elem_of_union_r.
             apply elem_of_dom. by eapply Hcl. }
           apply elem_of_dom in Hdi as [? ?]. congruence.
      * intros (_ & _ & [? ?]). congruence.
  - intros [[v p] s] (-> & -> & Hs & Hnd).
    rewrite pop_snoc. simpl. split_and!; [|done..].
    by rewrite insert_insert_eq.
Qed.

Lemma determine_all_paths_outcome (n : nat) (s d : string)
    (g : gmap string (list string)) (self : t) :
  outcome (λ self', self' = set_paths (paths self') self
                    ∧ (NoDup (paths self) → NoDup (paths self')))
          (λ _, ¬ (closed g ∧ is_Some (g !! s)))
          (¬ size g < n)
          (determine_all_paths n s d g self).
Proof.
  unfold determine_all_paths.
  eapply outcome_bind.
  - eapply outcome_mono;
      [apply determine_all_paths_util_outcome|intros a Ha; exact Ha| |].
    + intros e Hbad (Hcl & Hkey). apply Hbad.
      split_and!; [done|apply dom_fmap_L|done].
    + intros Hbad Hlt. apply Hbad.
      pose proof (unvisited_start g s). lia.
  - intros [[v p] s'] (_ & _ & Hs & Hnd). by simpl.
Qed.

Lemma determine_all_paths_util_fuel_mono (n n' : nat) (u d : string)
    (visited : gmap string bool) (path : list string)
    (g : gmap string (list string)) (self : t) (r : dfs_state) :
  (n ≤ n')%nat →
  determine_all_paths_util n u d visited path g self = Ok r →
  determine_all_paths_util n' u d visited path g self = Ok r.
Proof.
  revert n' u visited path self r.
  induction n as [|n IH]; intros n' u visited path self r Hle; [done|].
  destruct n' as [|n']; [lia|]. simpl.
  intros (a & Ha & Hrest)%bind_Ok. apply bind_Ok. exists a.
  split; [|done]. clear Hrest.
  case_decide; [done|].
  destruct (g !! u) as [adjacent|]; [|done].
  revert Ha. apply for_each_Ok_mono.
  intros i [[v p] s] r' _.
  destruct (v !! i) as [[|]|]; [done| |done].
  apply IH. lia.
Qed.

Lemma determine_all_paths_fuel_mono (n n' : nat) (s d : string)
    (g : gmap string (list string)) (self r : t) :
  (n ≤ n')%nat →
  determine_all_paths n s d g self = Ok r →
  determine_all_paths n' s d g self = Ok r.
Proof.
  unfold determine_all_paths. intros Hle (a & Ha & Hrest)%bind_Ok.
  apply bind_Ok. exists a. split; [|done].
  by eapply determine_all_paths_util_fuel_mono.
Qed.

(** ** Searching from the same source again *)

Lemma outcome_and {A : Type} (Q Q' : A → Prop) (E E' : exn → Prop)
    (D D' : Prop) (r : result A) :
  outcome Q E D r → outcome Q' E' D' r →
  outcome (λ a, Q a ∧ Q' a) (λ e, E e ∧ E' e) (D ∧ D') r.
Proof. destruct r; simpl; auto. Qed.

Lemma add_paths_app (ps l1 l2 : list (list string)) :
  add_paths ps (l1 ++ l2) = add_paths (add_paths ps l1) l2.
Proof. apply foldl_app. Qed.

Lemma add_paths_incl (ps found : list (list string)) (p : list string) :
  p ∈ ps ∨ p ∈ found → p ∈ add_paths ps found.
Proof.
  revert ps. induction found as [|q found IH]; intros ps; simpl.
  - intros [?|?%elem_of_nil]; done.
  - intros Hin. apply IH. unfold add_path.
    destruct (decide (q ∈ ps)) as [Hq|Hq].
    + destruct Hin as [?|[->|?]%elem_of_cons]; auto.
    + rewrite elem_of_app, list_elem_of_singleton.
      destruct Hin as [?|[->|?]%elem_of_cons]; auto.
Qed.

Lemma add_paths_known (ps found : list (list string)) :
  (∀ p, p ∈ found → p ∈ ps) → add_paths ps found = ps.
Proof.
  induction found as [|q found IH]; intros Hin; simpl; [done|].
  unfold add_path. rewrite decide_True by (apply Hin; left).
  apply IH. intros p Hp. apply Hin. by right.
Qed.

(** Whether a search comes back, and which sequences it completes, does
    not depend on the paths found before it. *)
Lemma determine_all_paths_util_found (n : nat) (u d : string)
    (visited : gmap string bool) (path : list string)
    (g : gmap string (list string)) :
  (∃ found, ∀ self, ∃ r,
     determine_all_paths_util n u d visited path g self = Ok r
     ∧ paths r.2 = add_paths (paths self) found)
  ∨ (∀ self r, determine_all_paths_util n u d visited path g self ≠ Ok r).
Proof.
  revert u visited path.
  induction n as [|n IH]; intros u visited path; [by right|].
  simpl. destruct (decide (u = d)) as [Hud|Hud].
  - left. exists [path ++ [u]]. intros self.
    case_decide as Hin; simpl; rewrite pop_snoc; simpl; eexists;
      (split; [reflexivity|]); simpl; unfold add_path.
    + by rewrite decide_True.
    + by rewrite decide_False.
  - destruct (g !! u) as [adjacent|]; [|by right].
    assert ((∃ found, ∀ self, ∃ s',
      for_each (λ i '(visited, path, self),
                 match visited !! i with
                 | None => Raise (KeyError i)
                 | Some true => Ok (visited, path, self)
                 | Some false =>
                     determine_all_paths_util n i d visited path g self
                 end) adjacent (<[u:=true]> visited, path ++ [u], self)
      = Ok (<[u:=true]> visited, path ++ [u], s')
      ∧ paths s' = add_paths (paths self) found)
      ∨ (∀ self r,
      for_each (λ i '(visited, path, self),
                 match visited !! i with
                 | None => Raise (KeyError i)
                 | Some true => Ok (visited, path, self)
                 | Some false =>
                     determine_all_paths_util n i d visited path g self
                 end) adjacent (<[u:=true]> visited, path ++ [u], self)
      ≠ Ok r)) as [[found Hfound]|Hnone].
    { clear Hud. induction adjacent as [|i adjacent IHa].
      - left. exists []. intros self. by exists self.
      - destruct (<[u:=true]> visited !! i) as [[|]|] eqn:Hvi.
        + destruct IHa as [[rest Hrest]|Hnone]; [left|right].
          * exists rest. intros self. rewrite for_each_cons, Hvi. simpl.
            apply Hrest.
          * intros self r. rewrite for_each_cons, Hvi. simpl. apply Hnone.
        + destruct (IH i (<[u:=true]> visited) (path ++ [u]))
            as [[fi Hfi]|Hnone]; [|right].
          * assert (∀ self, ∃ s,
              determine_all_paths_util n i d (<[u:=true]> visited)
                (path ++ [u]) g self
              = Ok (<[u:=true]> visited, path ++ [u], s)
              ∧ paths s = add_paths (paths self) fi) as Hfi'.
            { intros self. destruct (Hfi self) as ([[v p] s] & Hrun & Hp).
              pose proof (determine_all_paths_util_outcome n i d
                (<[u:=true]> visited) (path ++ [u]) g self) as Hout.
              rewrite Hrun in Hout. destruct Hout as (-> & -> & _).
              rewrite (insert_id _ _ _ Hvi) in Hrun. by exists s. }
            destruct IHa as [[rest Hrest]|Hnone]; [left|right].
            -- exists (fi ++ rest). intros self.
               destruct (Hfi' self) as (s & Hrun & Hp).
               destruct (Hrest s) as (s' & Hrun' & Hp').
               exists s'. rewrite for_each_cons, Hvi, Hrun. simpl.
               split; [done|]. by rewrite Hp', Hp, add_paths_app.
            -- intros self r. destruct (Hfi' self) as (s & Hrun & _).
               rewrite for_each_cons, Hvi, Hrun. simpl. apply Hnone.
          * intros self r. rewrite for_each_cons, Hvi.
            destruct (determine_all_paths_util n i d _ _ g self) eqn:Hrun;
              [by apply Hnone in Hrun|done|done].
        + right. intros self r. by rewrite for_each_cons, Hvi. }
    + left. exists found. intros self.
      destruct (Hfound self) as (s' & -> & Hp). simpl.
      rewrite pop_snoc. simpl. by eexists.
    + right. intros self r.
      destruct (for_each _ adjacent _) eqn:Hrun;
        [by apply Hnone in Hrun|done|done].
Qed.

(** X14.  A second search from a source, with the paths of the first in
    place, finds nothing new: it comes back with the instance as the first
    search left it. *)
Lemma determine_all_paths_again (n : nat) (s d : string)
    (g : gmap string (list string)) (self self1 : t) :
  determine_all_paths n s d g self = Ok self1 →
  determine_all_paths n s d g self1 = Ok self1.
Proof.
  intros Hrun.
  pose proof (determine_all_paths_outcome n s d g self1) as Hout.
  unfold determine_all_paths in *.
  destruct (determine_all_paths_util_found n s d ((λ _, false) <$> g) [] g)
    as [[found Hfound]|Hnone].
  - destruct (Hfound self) as ([[v1 p1] a] & Ha & Hpa).
    destruct (Hfound self1) as ([[v2 p2] b] & Hb & Hpb).
    rewrite Ha in Hrun. simpl in Hrun. injection Hrun as ->.
    rewrite Hb in Hout |- *. simpl in *. destruct Hout as [Hbeq _].
    f_equal. rewrite Hbeq, Hpb. destruct self1 as [e1 ps1 src1 pd1 lg1].
    unfold set_paths. simpl in *. f_equal.
    apply add_paths_known. intros p Hp. rewrite Hpa.
    apply add_paths_incl. by right.
  - destruct (determine_all_paths_util n s d _ [] g self) eqn:Ha;
      [by apply Hnone in Ha|done|done].
Qed.

(** ** The traversal does not read [path_dictionary] or [logger] *)

Lemma same_outcome_bind {A1 A2 B1 B2 : Type} (R : A1 → A2 → Prop)
    (R' : B1 → B2 → Prop) (r1 : result A1) (r2 : result A2)
    (f1 : A1 → result B1) (f2 : A2 → result B2) :
  same_outcome R r1 r2 →
  (∀ a1 a2, R a1 a2 → same_outcome R' (f1 a1) (f2 a2)) →
  same_outcome R' (r1 ≫= f1) (r2 ≫= f2).
Proof. destruct r1, r2; simpl; auto; done. Qed.

Lemma add_edges_same (n : nat) (m : gmap string (list string)) (t0 : string)
    (s1 s2 : t) :
  same_traversal s1 s2 →
  same_outcome same_traversal (add_edges n m t0 s1) (add_edges n m t0 s2).
Proof.
  revert t0 s1 s2. induction n as [|n IH]; intros t0 s1 s2 Hs; simpl; [done|].
  destruct (m !! t0) as [l|]; [|by simpl].
  apply for_each_same; [done|].
  intros x a b _ (He & Hp & Hsrc). simpl. case_decide.
  - apply IH. unfold same_traversal. simpl. by rewrite He.
  - unfold same_traversal. simpl. by rewrite He, Hsrc.
Qed.

Lemma determine_all_paths_util_same (n : nat) (u d : string)
    (visited : gmap string bool) (path : list string)
    (g : gmap string (list string)) (s1 s2 : t) :
  same_traversal s1 s2 →
  same_outcome (λ '(v1, p1, a) '(v2, p2, b),
                  v1 = v2 ∧ p1 = p2 ∧ same_traversal a b)
    (determine_all_paths_util n u d visited path g s1)
    (determine_all_paths_util n u d visited path g s2).
Proof.
  revert u visited path s1 s2.
  induction n as [|n IH]; intros u visited path s1 s2 Hs; simpl; [done|].
  eapply (same_outcome_bind
    (λ '(v1, p1, a) '(v2, p2, b), v1 = v2 ∧ p1 = p2 ∧ same_traversal a b)).
  - case_decide.
    + destruct Hs as (He & Hp & Hsrc). rewrite <- Hp.
      case_decide; simpl; split_and!; try done.
    + destruct (g !! u) as [adjacent|]; [|done].
      apply for_each_same; [done|].
      intros i [[v1 p1] a] [[v2 p2] b] _ (<- & <- & Hab).
      destruct (v1 !! i) as [[|]|]; simpl; [done| |done].
      by apply IH.
  - intros [[v1 p1] a] [[v2 p2] b] (<- & <- & Hab).
    destruct (pop p1); simpl; done.
Qed.

Lemma determine_all_paths_same (n : nat) (s d : string)
    (g : gmap string (list string)) (s1 s2 : t) :
  same_traversal s1 s2 →
  same_outcome same_traversal (determine_all_paths n s d g s1)
                              (determine_all_paths n s d g s2).
Proof.
  intros Hs. unfold determine_all_paths.
  eapply same_outcome_bind; [by apply determine_all_paths_util_same|].
  by intros [[v1 p1] a] [[v2 p2] b] (_ & _ & Hab).
Qed.

(** The loop body of [apply] starts from a clean slate: its traversal
    attributes afterwards do not depend on the instance it was given. *)
Lemma apply_one_same (n : nat) (m : gmap string (list string)) (t0 : string)
    (s1 s2 : t) :
  same_outcome same_traversal (apply_one n m t0 s1) (apply_one n m t0 s2).
Proof.
  unfold apply_one. eapply (same_outcome_bind same_traversal).
  - unfold expand. by apply add_edges_same.
  - intros a b Hab. eapply (same_outcome_bind same_traversal).
    + replace (sources b) with (sources a) by apply Hab.
      apply for_each_same; [done|].
      intros x a' b' _ Hab'.
      replace (edges b') with (edges a') by apply Hab'.
      by apply determine_all_paths_same.
    + intros a' b' (He & Hp & Hsrc). simpl. unfold same_traversal. simpl.
      by rewrite He, Hp, Hsrc.
Qed.

(** ** One target *)

Lemma expand_outcome (n : nat) (m : gmap string (list string)) (t0 : string)
    (self : t) :
  outcome (λ self', paths self' = []
                    ∧ path_dictionary self' = path_dictionary self
                    ∧ closed (edges self')
                    ∧ edges self' !! t0 = Some []
                    ∧ ∀ s, s ∈ sources self'
                           → m !! s = None ∧ is_Some (edges self' !! s)
                             ∧ tc (derived_from m) t0 s)
          (λ _, False) True (expand n m t0 self).
Proof.
  unfold expand. simpl.
  set (s0 := set_edges (add_edge t0 None ∅)
               (set_sources [] (set_paths [] (set_edges ∅ self)))).
  assert (edges s0 !! t0 = Some []) as Ht0.
  { simpl. unfold add_edge. by rewrite lookup_insert_eq. }
  assert (closed (edges s0)) as Hcl0.
  { intros u l v Hu Hv. simpl in Hu. unfold add_edge in Hu.
    apply lookup_insert_Some in Hu as [[_ <-]|[_ Hu]].
    - by apply elem_of_nil in Hv.
    - by rewrite lookup_empty in Hu. }
  pose proof (add_edges_keeps n m t0 s0) as Hkeep.
  pose proof (add_edges_closed n m t0 s0 Hcl0 ltac:(by rewrite Ht0)) as Hclo.
  pose proof (add_edges_frame n m t0 s0) as Hframe.
  destruct (add_edges n m t0 s0) as [s'| |] eqn:Hrun; simpl in *;
    [|done|done].
  destruct Hkeep as (Hp & Hd & _). destruct Hclo as (Hcl & new & Hnew & Hsrc).
  split_and!; [done|done|done| |].
  - rewrite Hframe; [done|]. intros Hcyc.
    rewrite (add_edges_cycle m t0 Hcyc n t0 s0) in Hrun; [done|].
    apply rtc_refl.
  - intros s Hs. apply Hsrc. by rewrite Hnew in Hs.
Qed.

Lemma apply_one_outcome (n : nat) (m : gmap string (list string))
    (t0 : string) (self : t) :
  outcome (λ self', path_dictionary self'
                    = <[t0 := paths self']> (path_dictionary self)
                    ∧ NoDup (paths self')
                    ∧ closed (edges self')
                    ∧ edges self' !! t0 = Some [])
          (λ _, False) True (apply_one n m t0 self).
Proof.
  unfold apply_one. eapply outcome_bind; [apply expand_outcome|].
  intros e1 (Hp & Hd & Hcl & Ht0 & Hsrc). simpl.
  eapply outcome_bind.
  - apply (for_each_outcome
      (λ s, s = set_paths (paths s) e1 ∧ NoDup (paths s))
      (λ _, False) True).
    + split; [by destruct e1|]. rewrite Hp. constructor.
    + intros x s Hx (Hs & Hnd).
      eapply outcome_mono; [apply determine_all_paths_outcome| | |done].
      * intros s' (Hs' & Hnd'). split; [|by auto].
        rewrite Hs', Hs. by destruct e1.
      * intros e Hbad. apply Hbad. rewrite Hs. simpl.
        split; [done|]. by apply Hsrc.
  - intros s (Hs & Hnd). simpl. rewrite Hs. simpl.
    rewrite Hd. done.
Qed.

Lemma apply_one_fuel_mono (n n' : nat) (m : gmap string (list string))
    (t0 : string) (self r : t) :
  (n ≤ n')%nat →
  apply_one n m t0 self = Ok r → apply_one n' m t0 self = Ok r.
Proof.
  unfold apply_one, expand.
  intros Hle (e1 & He1 & (s & Hs & Hr)%bind_Ok)%bind_Ok.
  apply bind_Ok. exists e1. split; [by eapply add_edges_fuel_mono|].
  apply bind_Ok. exists s. split; [|done].
  revert Hs. apply for_each_Ok_mono.
  intros x a b _. by apply determine_all_paths_fuel_mono.
Qed.

(** With an acyclic lineage map the work for one target comes back. *)
Lemma apply_one_returns (m : gmap string (list string)) (t0 : string)
    (self : t) :
  acyclic m → ∃ n self', apply_one n m t0 self = Ok self'.
Proof.
  intros Hac.
  pose proof (expand_outcome (S (size m)) m t0 self) as Hexp.
  assert (∃ e1, expand (S (size m)) m t0 self = Ok e1) as [e1 He1].
  { unfold expand.
    pose proof (add_edges_returns m Hac (S (size m)) t0 {[t0]}) as Hret.
    match goal with
    | |- ∃ e1, add_edges _ _ _ ?s0 = Ok e1 => specialize (Hret s0)
    end.
    destruct (add_edges _ _ _ _) as [e1| |]; [by exists e1|exfalso..];
      apply Hret.
    all: try (by apply elem_of_singleton).
    all: try (intros p ->%elem_of_singleton; apply rtc_refl).
    all: pose proof (subseteq_size (dom m ∖ {[t0]}) (dom m)) as Hsz;
      rewrite size_dom in Hsz; apply Nat.lt_succ_r, Hsz, subseteq_difference_l;
      done. }
  rewrite He1 in Hexp. destruct Hexp as (Hp & Hd & Hcl & Ht0 & Hsrc).
  set (n := S (size m) `max` S (size (edges e1))).
  assert (outcome (λ s, s = set_paths (paths s) e1) (λ _, False) False
            (for_each (λ source s, determine_all_paths n source t0
                                     (edges s) s) (sources e1) e1))
    as Hloop.
  { apply for_each_outcome; [by destruct e1|].
    intros x s Hx Hs. simpl.
    eapply outcome_mono; [apply determine_all_paths_outcome| | |].
    - intros s' (Hs' & _). rewrite Hs', Hs. by destruct e1.
    - intros e Hbad. apply Hbad. rewrite Hs. simpl.
      split; [done|]. by apply Hsrc.
    - intros Hbad. apply Hbad. rewrite Hs. simpl. lia. }
  destruct (for_each _ _ _) as [s| |] eqn:Hs; [|done|done].
  exists n. eexists. unfold apply_one. apply bind_Ok.
  exists e1. split.
  { unfold expand in *. eapply add_edges_fuel_mono; [|exact He1]. lia. }
  apply bind_Ok. exists s. split; [exact Hs|done].
Qed.

(** A target without an entry in the lineage map: nothing but the target
    itself enters the graph, no path is found, and an error is logged. *)
Lemma apply_one_unknown (n : nat) (m : gmap string (list string))
    (t0 : string) (self : t) :
  m !! t0 = None →
  apply_one (S n) m t0 self
  = Ok (Self {[t0 := []]} [] [] (<[t0 := []]> (path_dictionary self))
             (logger self ++ [(ERROR, not_found t0)])).
Proof.
  intros Hm. unfold apply_one, expand. simpl. rewrite Hm. simpl.
  unfold add_edge. by rewrite insert_empty.
Qed.

(** ** The list of targets *)

Lemma apply_Ok (n : nat) (m : gmap string (list string))
    (targets : list string) (self self' : t)
    (pd : gmap string (list (list string))) :
  apply n m targets self = Ok (self', pd)
  ↔ ∃ s, for_each (apply_one n m) targets self = Ok s
         ∧ self' = log INFO "Finished reconstructing paths." s
         ∧ pd = path_dictionary s.
Proof.
  unfold apply. rewrite bind_Ok. split.
  - intros (s & Hs & Heq). exists s. by simplify_eq.
  - intros (s & Hs & -> & ->). by exists s.
Qed.

Lemma apply_loop_fuel_mono (n n' : nat) (m : gmap string (list string))
    (targets : list string) (self r : t) :
  (n ≤ n')%nat →
  for_each (apply_one n m) targets self = Ok r →
  for_each (apply_one n' m) targets self = Ok r.
Proof.
  intros Hle. apply for_each_Ok_mono.
  intros x s r' _. by apply apply_one_fuel_mono.
Qed.

Lemma apply_loop_returns (m : gmap string (list string)) :
  acyclic m →
  ∀ targets self, ∃ n r, for_each (apply_one n m) targets self = Ok r.
Proof.
  intros Hac targets. induction targets as [|x l IH]; intros self.
  - by exists 0, self.
  - destruct (apply_one_returns m x self Hac) as (n1 & s1 & Hs1).
    destruct (IH s1) as (n2 & r & Hr).
    exists (n1 `max` n2), r. rewrite for_each_cons.
    rewrite (apply_one_fuel_mono n1 _ m x self s1); [|lia|done]. simpl.
    eapply apply_loop_fuel_mono; [|exact Hr]. lia.
Qed.

(** What the loop over the targets does to [path_dictionary]. *)
Lemma apply_loop_path_dictionary (n : nat) (m : gmap string (list string))
    (targets : list string) (self : t) :
  outcome (λ self',
             (∀ k, k ∉ targets
                   → path_dictionary self' !! k = path_dictionary self !! k)
             ∧ (∀ k, is_Some (path_dictionary self !! k)
                     → is_Some (path_dictionary self' !! k))
             ∧ (∀ k, k ∈ targets → is_Some (path_dictionary self' !! k))
             ∧ (∀ k ps, k ∈ targets → path_dictionary self' !! k = Some ps
                        → NoDup ps))
          (λ _, False) True (for_each (apply_one n m) targets self).
Proof.
  revert self. induction targets as [|x l IH] using rev_ind; intros self.
  - simpl. split_and!; [done|done|by intros ? ?%elem_of_nil|].
    by intros ? ? ?%elem_of_nil.
  - rewrite for_each_app. eapply outcome_bind; [apply IH|].
    intros sa (Hout & Hkeep & Hin & Hnd). simpl.
    pose proof (apply_one_outcome n m x sa) as Hone.
    destruct (apply_one n m x sa) as [sb| |]; simpl in *; [|done|done].
    destruct Hone as (Hpd & Hnd' & _). rewrite Hpd. split_and!.
    + intros k Hk. rewrite not_elem_of_app, not_elem_of_cons in Hk.
      destruct Hk as (Hk & Hne & _).
      rewrite lookup_insert_ne by done. by apply Hout.
    + intros k Hk. destruct (decide (x = k)) as [->|Hne].
      * rewrite lookup_insert_eq. by eexists.
      * rewrite lookup_insert_ne by done. by apply Hkeep.
    + intros k Hk. destruct (decide (x = k)) as [->|Hne].
      * rewrite lookup_insert_eq. by eexists.
      * rewrite lookup_insert_ne by done. apply Hin.
        apply elem_of_app in Hk as [Hk|Hk]; [done|].
        apply list_elem_of_singleton in Hk. congruence.
    + intros k ps Hk. destruct (decide (x = k)) as [->|Hne].
      * rewrite lookup_insert_eq. by intros [= <-].
      * rewrite lookup_insert_ne by done. apply Hnd.
        apply elem_of_app in Hk as [Hk|Hk]; [done|].
        apply list_elem_of_singleton in Hk. congruence.
Qed.

(** The entry of a target after the loop is the path list of that target
    worked on by itself, from any instance. *)
Lemma apply_loop_entry (n : nat) (m : gmap string (list string))
    (targets : list string) (self self' : t) (t0 : string) :
  for_each (apply_one n m) targets self = Ok self' →
  t0 ∈ targets →
  ∀ self0, ∃ self1, apply_one n m t0 self0 = Ok self1
                    ∧ path_dictionary self' !! t0 = Some (paths self1).
Proof.
  revert self'. induction targets as [|x l IH] using rev_ind;
    intros self' Hrun Hin self0; [by apply elem_of_nil in Hin|].
  rewrite for_each_app in Hrun.
  apply bind_Ok in Hrun as (sa & Hsa & Hx). simpl in Hx.
  apply bind_Ok in Hx as (sb & Hsb & [= <-]).
  pose proof (apply_one_outcome n m x sa) as Hone.
  rewrite Hsb in Hone. destruct Hone as (Hpd & _).
  destruct (decide (x = t0)) as [->|Hne].
  - pose proof (apply_one_same n m t0 sa self0) as Hsame.
    rewrite Hsb in Hsame.
    destruct (apply_one n m t0 self0) as [s1| |]; [|done|done].
    exists s1. split; [done|].
    destruct Hsame as (_ & Hp & _).
    by rewrite Hpd, lookup_insert_eq, Hp.
  - apply elem_of_app in Hin as [Hin|Hin];
      [|apply list_elem_of_singleton in Hin; congruence].
    destruct (IH sa Hsa Hin self0) as (s1 & Hs1 & Hlook).
    exists s1. split; [done|]. by rewrite Hpd, lookup_insert_ne.
Qed.

Lemma apply_fuel_mono (n n' : nat) (m : gmap string (list string))
    (targets : list string) (self : t)
    (r : t * gmap string (list (list string))) :
  (n ≤ n')%nat →
  apply n m targets self = Ok r → apply n' m targets self = Ok r.
Proof.
  destruct r as [self' pd]. intros Hle (s & Hs & -> & ->)%apply_Ok.
  apply apply_Ok. exists s. split; [|done].
  by eapply apply_loop_fuel_mono.
Qed.

(** A target without an entry in the lineage map, met anywhere in the
    list, leaves its own empty entry and nothing else in the dictionary. *)
Lemma apply_loop_unknown (n : nat) (m : gmap string (list string))
    (t0 : string) (l : list string) (s1 s2 : t) :
  m !! t0 = None →
  path_dictionary s1 = <[t0 := []]> (path_dictionary s2) →
  same_outcome
    (λ a b, path_dictionary a = <[t0 := []]> (path_dictionary b))
    (for_each (apply_one (S n) m) l s1) (for_each (apply_one (S n) m) l s2).
Proof.
  intros Hm Hpd. apply for_each_same; [done|].
  intros x a b _ Hab. destruct (decide (x = t0)) as [->|Hne].
  - rewrite !apply_one_unknown by done. simpl. by rewrite Hab.
  - pose proof (apply_one_same (S n) m x a b) as Hsame.
    pose proof (apply_one_outcome (S n) m x a) as Ha.
    pose proof (apply_one_outcome (S n) m x b) as Hb.
    destruct (apply_one (S n) m x a) as [a'| |],
             (apply_one (S n) m x b) as [b'| |]; simpl in *; try done.
    destruct Ha as (-> & _), Hb as (-> & _), Hsame as (_ & -> & _).
    rewrite Hab. by apply insert_insert_ne.
Qed.

(** A lineage map along which a rank goes down has no cycle. *)
Lemma ranked_acyclic (rank : string → nat) (m : gmap string (list string)) :
  map_Forall (λ x l, Forall (λ y, rank y < rank x) l) m → acyclic m.
Proof.
  intros Hrank.
  assert (∀ x y, tc (derived_from m) x y → rank y < rank x) as Hdown.
  { intros x y Hxy. induction Hxy as [x y (l & Hl & Hy)|x y z (l & Hl & Hy) _ IH].
    - specialize (Hrank x l Hl). rewrite Forall_forall in Hrank. by apply Hrank.
    - specialize (Hrank x l Hl). rewrite Forall_forall in Hrank.
      specialize (Hrank y Hy). lia. }
  intros x Hx. apply Hdown in Hx. lia.
Qed.

(** ** The diamond *)

(** C1.  For the lineage map built from the rows (A,B), (A,C), (B,D), (C,D),
    reconstructing the target D returns the dictionary that holds for D
    exactly the two paths [A; B; D] and [A; C; D], in this order, and A is
    the only batch among the recorded sources.  This holds at every depth
    bound from 3 on. *)
Theorem diamond_paths (n : nat) :
  ∃ self',
    apply (3 + n) (BatchHistory.apply diamond) ["D"] init
    = Ok (self', {["D" := [["A"; "B"; "D"]; ["A"; "C"; "D"]]]})
    ∧ ∀ s, s ∈ sources self' ↔ s = "A".
Proof.
  assert (∃ self',
    apply 3 (BatchHistory.apply diamond) ["D"] init
    = Ok (self', {["D" := [["A"; "B"; "D"]; ["A"; "C"; "D"]]]})
    ∧ sources self' = ["A"; "A"]) as (self' & Hrun & Hsrc).
  { eexists. split; vm_compute; reflexivity. }
  exists self'. split.
  - eapply apply_fuel_mono; [|exact Hrun]. lia.
  - intros s. rewrite Hsrc, !elem_of_cons, elem_of_nil. tauto.
Qed.

(** ** The recorded sources *)


(** ** Termination *)

(** C3.  With an acyclic lineage map, [apply] comes back for every list of
    targets once the depth bound is large enough, so every graph expansion
    and every depth-first search in it comes back.  When a target is derived
    from a batch that lies on a cycle of the lineage map, the expansion for
    it never comes back, whatever the depth bound. *)
Theorem reconstruction_terminates (m : gmap string (list string)) :
  (acyclic m →
   ∀ targets self, ∃ n, ∀ n', (n ≤ n')%nat →
     ∃ r, apply n' m targets self = Ok r)
  ∧ (∀ c t0 targets,
       tc (derived_from m) c c → rtc (derived_from m) t0 c → t0 ∈ targets →
       ∀ n self, apply n m targets self = OutOfFuel).
Proof.
  split.
  - intros Hac targets self.
    destruct (apply_loop_returns m Hac targets self) as (n & s & Hs).
    exists n. intros n' Hle. eexists.
    eapply apply_fuel_mono; [exact Hle|].
    apply apply_Ok. exists s. by split.
  - intros c t0 targets Hc Hreach Hin n self. unfold apply.
    rewrite (for_each_stuck (apply_one n m) targets t0); [done|done| |].
    + intros s. unfold apply_one, expand.
      by rewrite (add_edges_cycle m c Hc n t0).
    + intros y s e _ Hraise.
      pose proof (apply_one_outcome n m y s) as Hout.
      by rewrite Hraise in Hout.
Qed.

Lemma reconstruction_terminates_witness :
  (acyclic (BatchHistory.apply diamond)
   ∧ ∃ n, ∀ n', (n ≤ n')%nat →
       ∃ r, apply n' (BatchHistory.apply diamond) ["D"; "B"] init = Ok r)
  ∧ (tc (derived_from ring) "A" "A" ∧ rtc (derived_from ring) "A" "A"
     ∧ "A" ∈ ["D"; "A"]
     ∧ ∀ n self, apply n ring ["D"; "A"] self = OutOfFuel).
Proof.
  assert (acyclic (BatchHistory.apply diamond)) as Hac.
  { apply (ranked_acyclic diamond_rank).
    apply (bool_decide_unpack _). vm_compute. exact I. }
  assert (tc (derived_from ring) "A" "A") as Hcyc.
  { apply tc_l with "B".
    - exists ["B"]. split; [reflexivity|left].
    - apply tc_once. exists ["A"]. split; [reflexivity|left]. }
  assert (rtc (derived_from ring) "A" "A") as Hreach by apply rtc_refl.
  assert ("A" ∈ ["D"; "A"]) as Hin by (right; left).
  split.
  - split; [exact Hac|].
    apply (proj1 (reconstruction_terminates (BatchHistory.apply diamond))
             Hac).
  - split; [exact Hcyc|]. split; [exact Hreach|]. split; [exact Hin|].
    exact (proj2 (reconstruction_terminates ring) "A" "A" ["D"; "A"]
             Hcyc Hreach Hin).
Defined.

(** A lineage map with a cycle, and a target that the cycle does not
    concern: the rows of the diamond and two batches produced from each
    other.  The reconstruction for D comes back. *)
Lemma unreached_cycle_returns :
  ¬ acyclic (BatchHistory.apply diamond_and_ring)
  ∧ ∃ self',
      apply 3 (BatchHistory.apply diamond_and_ring) ["D"] init
      = Ok (self', {["D" := [["A"; "B"; "D"]; ["A"; "C"; "D"]]]}).
Proof.
  split.
  - intros Hac. apply (Hac "X"). apply tc_l with "Y".
    + exists ["Y"]. split; [vm_compute; reflexivity|left].
    + apply tc_once. exists ["X"]. split; [vm_compute; reflexivity|left].
  - eexists. vm_compute. reflexivity.
Qed.

(** ** A target that the lineage map does not know *)

(** C4.  When the target has no entry in the lineage map, the work for it
    returns: the graph holds the target alone, without neighbours, no
    source and no path is recorded, the dictionary gets the empty list for
    the target, and one error record naming the target is handed to the
    logger.  Putting such a target anywhere into the list of targets
    changes neither how [apply] ends nor any other entry of the returned
    dictionary. *)
Theorem unknown_target (n : nat) (m : gmap string (list string))
    (t0 : string) :
  m !! t0 = None →
  (∀ self,
     apply_one (S n) m t0 self
     = Ok (Self {[t0 := []]} [] [] (<[t0 := []]> (path_dictionary self))
                (logger self ++ [(ERROR, not_found t0)])))
  ∧ (∀ l1 l2 self,
       same_outcome (λ r1 r2, r1.2 = <[t0 := []]> r2.2)
         (apply (S n) m (l1 ++ t0 :: l2) self)
         (apply (S n) m (l1 ++ l2) self)).
Proof.
  intros Hm. split; [intros self; by apply apply_one_unknown|].
  intros l1 l2 self. unfold apply.
  eapply (same_outcome_bind
    (λ a b, path_dictionary a = <[t0 := []]> (path_dictionary b)));
    [|by intros a b Hab].
  rewrite !for_each_app.
  destruct (for_each (apply_one (S n) m) l1 self) as [sa| |]; simpl;
    [|done|done].
  rewrite apply_one_unknown by done. simpl.
  by apply apply_loop_unknown.
Qed.

Lemma unknown_target_witness :
  BatchHistory.apply diamond !! "X" = None
  ∧ apply_one 1 (BatchHistory.apply diamond) "X" init
    = Ok (Self {["X" := []]} [] [] {["X" := []]}
               [(INFO, "Reconstructing Paths");
                (ERROR, "X not found in the Batch dictionary.")])
  ∧ same_outcome (λ r1 r2, r1.2 = <["X" := []]> r2.2)
      (apply 3 (BatchHistory.apply diamond) ["X"; "D"] init)
      (apply 3 (BatchHistory.apply diamond) ["D"] init).
Proof.
  assert (BatchHistory.apply diamond !! "X" = None) as Hm
    by (vm_compute; reflexivity).
  split; [exact Hm|].
  destruct (unknown_target 2 (BatchHistory.apply diamond) "X" Hm)
    as [_ Hrest].
  split.
  - apply (proj1 (unknown_target 0 (BatchHistory.apply diamond) "X" Hm) init).
  - apply (Hrest [] ["D"] init).
Defined.

(** ** No path twice *)

(** C5.  In the dictionary that [apply] returns, the list of paths of every
    target of the call holds no sequence twice. *)
Theorem no_duplicate_paths (n : nat) (m : gmap string (list string))
    (targets : list string) (self self' : t)
    (pd : gmap string (list (list string))) (t0 : string)
    (ps : list (list string)) :
  apply n m targets self = Ok (self', pd) →
  t0 ∈ targets → pd !! t0 = Some ps → NoDup ps.
Proof.
  intros (s & Hs & -> & ->)%apply_Ok Hin Hlook.
  pose proof (apply_loop_path_dictionary n m targets self) as Hout.
  rewrite Hs in Hout. destruct Hout as (_ & _ & _ & Hnd).
  by eapply Hnd.
Qed.

Lemma no_duplicate_paths_witness :
  apply 3 (BatchHistory.apply diamond) ["D"] init
  = Ok (Self diamond_graph [["A"; "B"; "D"]; ["A"; "C"; "D"]] ["A"; "A"]
             {["D" := [["A"; "B"; "D"]; ["A"; "C"; "D"]]]}
             [(INFO, "Reconstructing Paths");
              (INFO, "Finished reconstructing paths.")],
        {["D" := [["A"; "B"; "D"]; ["A"; "C"; "D"]]]})
  ∧ "D" ∈ ["D"]
  ∧ ({["D" := [["A"; "B"; "D"]; ["A"; "C"; "D"]]]}
       : gmap string (list (list string))) !! "D"
    = Some [["A"; "B"; "D"]; ["A"; "C"; "D"]]
  ∧ NoDup [["A"; "B"; "D"]; ["A"; "C"; "D"]].
Proof.
  assert (apply 3 (BatchHistory.apply diamond) ["D"] init
    = Ok (Self diamond_graph [["A"; "B"; "D"]; ["A"; "C"; "D"]] ["A"; "A"]
               {["D" := [["A"; "B"; "D"]; ["A"; "C"; "D"]]]}
               [(INFO, "Reconstructing Paths");
                (INFO, "Finished reconstructing paths.")],
          {["D" := [["A"; "B"; "D"]; ["A"; "C"; "D"]]]})) as Hrun
    by (vm_compute; reflexivity).
  assert ("D" ∈ ["D"]) as Hin by left.
  assert (({["D" := [["A"; "B"; "D"]; ["A"; "C"; "D"]]]}
             : gmap string (list (list string))) !! "D"
          = Some [["A"; "B"; "D"]; ["A"; "C"; "D"]]) as Hlook
    by (vm_compute; reflexivity).
  split_and!; [exact Hrun|exact Hin|exact Hlook|].
  exact (no_duplicate_paths _ _ _ _ _ _ _ _ Hrun Hin Hlook).
Defined.

(** ** Merging edges *)

(** C6.  Merging a row into the dictionary a second time changes nothing,
    right away or after any further rows; and after any sequence of rows
    the list under a key holds the from-batches of the rows of that key,
    each once, in the order in which they were first seen. *)
Theorem edge_merge_idempotent :
  (∀ r batch_dict,
     BatchHistory.update_to_batch_dict r
       (BatchHistory.update_to_batch_dict r batch_dict)
     = BatchHistory.update_to_batch_dict r batch_dict)
  ∧ (∀ df1 df2 r,
       BatchHistory.apply (df1 ++ r :: df2 ++ [r])
       = BatchHistory.apply (df1 ++ r :: df2))
  ∧ (∀ df to_batch,
       BatchHistory.apply df !! to_batch
       = match froms_of to_batch df with
         | [] => None
         | x :: l => Some (first_seen (x :: l))
         end)
  ∧ (∀ df to_batch,
       NoDup (default [] (BatchHistory.apply df !! to_batch))).
Proof.
  split_and!.
  - apply update_to_batch_dict_twice.
  - apply update_to_batch_dict_seen.
  - apply BatchHistory_apply_lookup.
  - intros df to_batch. rewrite BatchHistory_apply_lookup.
    destruct (froms_of to_batch df); [constructor|apply first_seen_NoDup].
Qed.

(** ** The graph of a target *)

(** C7.  In the graph that the expansion for a target has built, the target
    is a node and has no neighbours. *)
Theorem target_is_sink (n : nat) (m : gmap string (list string))
    (t0 : string) (self self' : t) :
  expand n m t0 self = Ok self' → edges self' !! t0 = Some [].
Proof.
  intros Hrun. pose proof (expand_outcome n m t0 self) as Hexp.
  rewrite Hrun in Hexp. apply Hexp.
Qed.

Lemma target_is_sink_witness :
  expand 2 (BatchHistory.apply diamond) "D" init
  = Ok (Self diamond_graph [] ["A"; "A"] ∅ [(INFO, "Reconstructing Paths")])
  ∧ diamond_graph !! "D" = Some [].
Proof.
  assert (expand 2 (BatchHistory.apply diamond) "D" init
    = Ok (Self diamond_graph [] ["A"; "A"] ∅
               [(INFO, "Reconstructing Paths")])) as Hrun
    by (vm_compute; reflexivity).
  split; [exact Hrun|].
  exact (target_is_sink _ _ _ _ _ Hrun).
Defined.

(** C10.  The graph that the expansion for a target has built names only
    its own nodes as neighbours, and every recorded source is one of its
    nodes; so the search from a recorded source never raises, at any depth
    bound, towards any destination and with any list of paths found so
    far: each read of [edges] and of [visited] finds its key. *)
Theorem dfs_lookups_succeed (n : nat) (m : gmap string (list string))
    (t0 : string) (self self' : t) :
  expand n m t0 self = Ok self' →
  closed (edges self')
  ∧ (∀ s, s ∈ sources self' → is_Some (edges self' !! s))
  ∧ (∀ s, s ∈ sources self' →
       ∀ n' d self'' e,
         determine_all_paths n' s d (edges self') self'' ≠ Raise e).
Proof.
  intros Hrun. pose proof (expand_outcome n m t0 self) as Hexp.
  rewrite Hrun in Hexp. destruct Hexp as (_ & _ & Hcl & _ & Hsrc).
  split_and!; [done|intros s Hs; by apply Hsrc|].
  intros s Hs n' d self'' e Hraise.
  pose proof (determine_all_paths_outcome n' s d (edges self') self'')
    as Hout.
  rewrite Hraise in Hout. apply Hout. split; [done|by apply Hsrc].
Qed.

Lemma dfs_lookups_succeed_witness :
  expand 2 (BatchHistory.apply diamond) "D" init
  = Ok (Self diamond_graph [] ["A"; "A"] ∅ [(INFO, "Reconstructing Paths")])
  ∧ closed diamond_graph
  ∧ (∀ s, s ∈ ["A"; "A"] → is_Some (diamond_graph !! s))
  ∧ (∀ s, s ∈ ["A"; "A"] →
       ∀ n' d self'' e,
         determine_all_paths n' s d diamond_graph self'' ≠ Raise e).
Proof.
  assert (expand 2 (BatchHistory.apply diamond) "D" init
    = Ok (Self diamond_graph [] ["A"; "A"] ∅
               [(INFO, "Reconstructing Paths")])) as Hrun
    by (vm_compute; reflexivity).
  split; [exact Hrun|].
  exact (dfs_lookups_succeed _ _ _ _ _ Hrun).
Defined.

(** ** One instance, several targets, several calls *)

(** C8.  The entry that [apply] returns for a target of its list is the
    entry returned when the target is the only one in the list, at the same
    depth bound and from any instance whatever: nothing that an earlier
    target left in [edges], [sources] or [paths] is read. *)
Theorem no_state_leak (n : nat) (m : gmap string (list string))
    (targets : list string) (self self' : t)
    (pd : gmap string (list (list string))) (t0 : string) :
  apply n m targets self = Ok (self', pd) →
  t0 ∈ targets →
  ∀ self0, ∃ self1 pd1,
    apply n m [t0] self0 = Ok (self1, pd1) ∧ pd1 !! t0 = pd !! t0.
Proof.
  intros (s & Hs & -> & ->)%apply_Ok Hin self0.
  destruct (apply_loop_entry n m targets self s t0 Hs Hin self0)
    as (s1 & Hs1 & Hlook).
  pose proof (apply_one_outcome n m t0 self0) as Hone.
  rewrite Hs1 in Hone. destruct Hone as (Hpd & _).
  eexists _, _. split.
  - apply apply_Ok. exists s1. split; [|done]. simpl. by rewrite Hs1.
  - simpl. by rewrite Hlook, lookup_insert_eq.
Qed.

Lemma no_state_leak_witness :
  apply 3 (BatchHistory.apply diamond) ["B"; "D"] init
  = Ok (Self diamond_graph [["A"; "B"; "D"]; ["A"; "C"; "D"]] ["A"; "A"]
             (<["D" := [["A"; "B"; "D"]; ["A"; "C"; "D"]]]>
                {["B" := [["A"; "B"]]]})
             [(INFO, "Reconstructing Paths");
              (INFO, "Finished reconstructing paths.")],
        <["D" := [["A"; "B"; "D"]; ["A"; "C"; "D"]]]>
          {["B" := [["A"; "B"]]]})
  ∧ "D" ∈ ["B"; "D"]
  ∧ ∀ self0, ∃ self1 pd1,
      apply 3 (BatchHistory.apply diamond) ["D"] self0 = Ok (self1, pd1)
      ∧ pd1 !! "D"
        = (<["D" := [["A"; "B"; "D"]; ["A"; "C"; "D"]]]>
             ({["B" := [["A"; "B"]]]}
                : gmap string (list (list string)))) !! "D".
Proof.
  assert (apply 3 (BatchHistory.apply diamond) ["B"; "D"] init
    = Ok (Self diamond_graph [["A"; "B"; "D"]; ["A"; "C"; "D"]] ["A"; "A"]
               (<["D" := [["A"; "B"; "D"]; ["A"; "C"; "D"]]]>
                  {["B" := [["A"; "B"]]]})
               [(INFO, "Reconstructing Paths");
                (INFO, "Finished reconstructing paths.")],
          <["D" := [["A"; "B"; "D"]; ["A"; "C"; "D"]]]>
            {["B" := [["A"; "B"]]]})) as Hrun
    by (vm_compute; reflexivity).
  assert ("D" ∈ ["B"; "D"]) as Hin by (right; left).
  split_and!; [exact Hrun|exact Hin|].
  exact (no_state_leak _ _ _ _ _ _ _ Hrun Hin).
Defined.

(** C9.  [path_dictionary] is set to the empty dictionary by the
    constructor only.  After a second call of [apply] on the instance, the
    returned dictionary has an entry for every target of the first call and
    for every target of the second; the entries of the first call whose
    targets are not targets of the second are as the first call left
    them. *)
Theorem path_dictionary_accumulates (n1 n2 : nat)
    (m1 m2 : gmap string (list string)) (l1 l2 : list string)
    (s1 s2 : t) (pd1 pd2 : gmap string (list (list string))) :
  apply n1 m1 l1 init = Ok (s1, pd1) →
  apply n2 m2 l2 s1 = Ok (s2, pd2) →
  (∀ k, k ∈ l1 → is_Some (pd2 !! k))
  ∧ (∀ k, k ∈ l2 → is_Some (pd2 !! k))
  ∧ (∀ k, k ∉ l2 → pd2 !! k = pd1 !! k).
Proof.
  intros (a & Ha & -> & ->)%apply_Ok (b & Hb & -> & ->)%apply_Ok.
  pose proof (apply_loop_path_dictionary n1 m1 l1 init) as H1.
  pose proof (apply_loop_path_dictionary n2 m2 l2
                (log INFO "Finished reconstructing paths." a)) as H2.
  rewrite Ha in H1. rewrite Hb in H2. simpl in H1, H2.
  destruct H1 as (_ & _ & Hin1 & _). destruct H2 as (Hout2 & Hkeep2 & Hin2 & _).
  split_and!; [|done|done].
  intros k Hk. by apply Hkeep2, Hin1.
Qed.

Lemma path_dictionary_accumulates_witness :
  apply 3 (BatchHistory.apply diamond) ["B"] init
  = Ok (Self (<["A" := ["B"]]> {["B" := []]}) [["A"; "B"]] ["A"]
             {["B" := [["A"; "B"]]]}
             [(INFO, "Reconstructing Paths");
              (INFO, "Finished reconstructing paths.")],
        {["B" := [["A"; "B"]]]})
  ∧ apply 3 (BatchHistory.apply diamond) ["D"]
      (Self (<["A" := ["B"]]> {["B" := []]}) [["A"; "B"]] ["A"]
            {["B" := [["A"; "B"]]]}
            [(INFO, "Reconstructing Paths");
             (INFO, "Finished reconstructing paths.")])
    = Ok (Self diamond_graph [["A"; "B"; "D"]; ["A"; "C"; "D"]] ["A"; "A"]
               (<["D" := [["A"; "B"; "D"]; ["A"; "C"; "D"]]]>
                  {["B" := [["A"; "B"]]]})
               [(INFO, "Reconstructing Paths");
                (INFO, "Finished reconstructing paths.");
                (INFO, "Finished reconstructing paths.")],
          <["D" := [["A"; "B"; "D"]; ["A"; "C"; "D"]]]>
            {["B" := [["A"; "B"]]]})
  ∧ <["D" := [["A"; "B"; "D"]; ["A"; "C"; "D"]]]>
      ({["B" := [["A"; "B"]]]} : gmap string (list (list string))) !! "B"
    = Some [["A"; "B"]].
Proof.
  assert (apply 3 (BatchHistory.apply diamond) ["B"] init
    = Ok (Self (<["A" := ["B"]]> {["B" := []]}) [["A"; "B"]] ["A"]
               {["B" := [["A"; "B"]]]}
               [(INFO, "Reconstructing Paths");
                (INFO, "Finished reconstructing paths.")],
          {["B" := [["A"; "B"]]]})) as Hrun1
    by (vm_compute; reflexivity).
  assert (apply 3 (BatchHistory.apply diamond) ["D"]
      (Self (<["A" := ["B"]]> {["B" := []]}) [["A"; "B"]] ["A"]
            {["B" := [["A"; "B"]]]}
            [(INFO, "Reconstructing Paths");
             (INFO, "Finished reconstructing paths.")])
    = Ok (Self diamond_graph [["A"; "B"; "D"]; ["A"; "C"; "D"]] ["A"; "A"]
               (<["D" := [["A"; "B"; "D"]; ["A"; "C"; "D"]]]>
                  {["B" := [["A"; "B"]]]})
               [(INFO, "Reconstructing Paths");
                (INFO, "Finished reconstructing paths.");
                (INFO, "Finished reconstructing paths.")],
          <["D" := [["A"; "B"; "D"]; ["A"; "C"; "D"]]]>
            {["B" := [["A"; "B"]]]})) as Hrun2
    by (vm_compute; reflexivity).
  split_and!; [exact Hrun1|exact Hrun2|].
  destruct (path_dictionary_accumulates _ _ _ _ _ _ _ _ _ _ Hrun1 Hrun2)
    as (_ & _ & Hkeep).
  rewrite (Hkeep "B"); [vm_compute; reflexivity|].
  intros Hin. apply list_elem_of_singleton in Hin. discriminate Hin.
Defined.

(** * Further properties of the code *)

(** ** The lineage map and the rows *)

Lemma froms_of_elem (to_batch x : string) (df : list BatchHistory.row) :
  x ∈ froms_of to_batch df ↔ BatchHistory.Row x to_batch ∈ df.
Proof.
  unfold froms_of. rewrite list_elem_of_fmap. split.
  - intros ([f t0] & -> & [Hto Hin]%list_elem_of_filter).
    simpl in Hto. by subst.
  - intros Hin. exists (BatchHistory.Row x to_batch). split; [done|].
    by apply list_elem_of_filter.
Qed.

Lemma BatchHistory_apply_elem (df : list BatchHistory.row)
    (to_batch x : string) :
  x ∈ default [] (BatchHistory.apply df !! to_batch)
  ↔ BatchHistory.Row x to_batch ∈ df.
Proof.
  rewrite BatchHistory_apply_lookup, <- froms_of_elem.
  destruct (froms_of to_batch df) as [|y l]; [done|].
  apply (first_seen_elem (y :: l)).
Qed.

Lemma lineage_map_keys (df : list BatchHistory.row) (to_batch : string) :
  is_Some (BatchHistory.apply df !! to_batch)
  ↔ ∃ x, BatchHistory.Row x to_batch ∈ df.
Proof.
  rewrite BatchHistory_apply_lookup.
  destruct (froms_of to_batch df) as [|y l] eqn:Hfr.
  - split; [by intros [? ?]|]. intros [x Hx].
    apply froms_of_elem in Hx. rewrite Hfr in Hx.
    by apply elem_of_nil in Hx.
  - split; [|by eexists]. intros _. exists y.
    apply froms_of_elem. rewrite Hfr. left.
Qed.

(** X1.  The dictionary holds [x] in the list under [to_batch] exactly when
    some row says that [to_batch] was produced from [x]; a batch is a key
    exactly when it is the TO batch of some row, and no key has an empty
    list. *)
Theorem lineage_map_relates_rows (df : list BatchHistory.row)
    (to_batch : string) :
  (∀ x, x ∈ default [] (BatchHistory.apply df !! to_batch)
        ↔ BatchHistory.Row x to_batch ∈ df)
  ∧ (is_Some (BatchHistory.apply df !! to_batch)
     ↔ ∃ x, BatchHistory.Row x to_batch ∈ df)
  ∧ BatchHistory.apply df !! to_batch ≠ Some [].
Proof.
  split_and!.
  - intros x. apply BatchHistory_apply_elem.
  - apply lineage_map_keys.
  - rewrite BatchHistory_apply_lookup.
    by destruct (froms_of to_batch df).
Qed.

(** X2.  Reading the rows in another order gives a dictionary with the
    same keys, and under each key the same batches, possibly in another
    order. *)
Theorem lineage_map_row_order (df df' : list BatchHistory.row)
    (to_batch : string) :
  df ≡ₚ df' →
  (is_Some (BatchHistory.apply df !! to_batch)
   ↔ is_Some (BatchHistory.apply df' !! to_batch))
  ∧ default [] (BatchHistory.apply df !! to_batch)
    ≡ₚ default [] (BatchHistory.apply df' !! to_batch).
Proof.
  intros Hperm. split.
  - rewrite !lineage_map_keys. by setoid_rewrite Hperm.
  - apply NoDup_Permutation.
    + rewrite BatchHistory_apply_lookup.
      destruct (froms_of to_batch df); [constructor|apply first_seen_NoDup].
    + rewrite BatchHistory_apply_lookup.
      destruct (froms_of to_batch df'); [constructor|apply first_seen_NoDup].
    + intros x. rewrite !BatchHistory_apply_elem. by rewrite Hperm.
Qed.

Lemma lineage_map_row_order_witness :
  diamond ≡ₚ reverse diamond
  ∧ (is_Some (BatchHistory.apply diamond !! "D")
     ↔ is_Some (BatchHistory.apply (reverse diamond) !! "D"))
  ∧ default [] (BatchHistory.apply diamond !! "D")
    ≡ₚ default [] (BatchHistory.apply (reverse diamond) !! "D").
Proof.
  assert (diamond ≡ₚ reverse diamond) as Hperm
    by (symmetry; apply reverse_Permutation).
  split; [exact Hperm|].
  exact (lineage_map_row_order diamond (reverse diamond) "D" Hperm).
Defined.

Lemma update_to_batch_dict_prefix (r : BatchHistory.row)
    (batch_dict : gmap string (list string)) (to_batch : string) :
  default [] (batch_dict !! to_batch)
  `prefix_of`
  default [] (BatchHistory.update_to_batch_dict r batch_dict !! to_batch).
Proof.
  unfold BatchHistory.update_to_batch_dict.
  destruct (decide (BatchHistory.TO_Batch r = to_batch)) as [<-|Hne].
  - destruct (batch_dict !! BatchHistory.TO_Batch r) as [l|] eqn:Hl.
    + destruct (decide (BatchHistory.FROM_Batch r ∈ l)).
      * by rewrite Hl.
      * rewrite lookup_insert_eq. simpl. by apply prefix_app_r.
    + simpl. apply prefix_nil.
  - destruct (batch_dict !! BatchHistory.TO_Batch r) as [l|];
      [destruct (decide (BatchHistory.FROM_Batch r ∈ l))|];
      by rewrite ?lookup_insert_ne.
Qed.

(** X3.  Merging further rows never removes or moves an entry: the list
    that a key has after some rows is a prefix of the list it has after
    any more rows. *)
Theorem lineage_map_grows (df df' : list BatchHistory.row)
    (to_batch : string) :
  default [] (BatchHistory.apply df !! to_batch)
  `prefix_of` default [] (BatchHistory.apply (df ++ df') !! to_batch).
Proof.
  induction df' as [|r df' IH] using rev_ind.
  - by rewrite app_nil_r.
  - rewrite app_assoc, BatchHistory_apply_snoc.
    etrans; [exact IH|]. apply update_to_batch_dict_prefix.
Qed.

(** ** The graph of a target and the lineage map *)

(** The invariant rule of the loop, with the elements already worked on. *)
Lemma for_each_outcome_prefix {A S : Type} (I : list A → S → Prop)
    (E : exn → Prop) (D : Prop) (body : A → S → result S) (l : list A)
    (s : S) :
  I [] s →
  (∀ pre x post s, l = pre ++ x :: post → I pre s →
     outcome (I (pre ++ [x])) E D (body x s)) →
  outcome (I l) E D (for_each body l s).
Proof.
  assert (∀ post pre s, l = pre ++ post → I pre s →
            (∀ pre x post s, l = pre ++ x :: post → I pre s →
               outcome (I (pre ++ [x])) E D (body x s)) →
            outcome (I l) E D (for_each body post s)) as Hgen.
  { induction post as [|x post IH]; intros pre s0 Hl Hpre Hbody.
    - rewrite app_nil_r in Hl. by subst.
    - rewrite for_each_cons. eapply outcome_bind.
      + by eapply Hbody.
      + intros s' Hs'. apply (IH (pre ++ [x])); [|done|done].
        by rewrite <- app_assoc. }
  intros Hs Hbody. by apply (Hgen l []).
Qed.

Lemma add_edge_neighbours (u v k w : string)
    (e : gmap string (list string)) :
  w ∈ neighbours (add_edge u (Some v) e) k
  ↔ w ∈ neighbours e k ∨ (k = u ∧ w = v).
Proof.
  unfold neighbours. destruct (decide (u = k)) as [->|Hne].
  - unfold add_edge. destruct (e !! k) as [l|] eqn:Hk.
    + destruct (decide (v ∈ l)) as [Hin|Hin].
      * rewrite Hk. simpl. split; [by left|]. by intros [?|[_ ->]].
      * rewrite lookup_insert_eq. simpl.
        rewrite elem_of_app, list_elem_of_singleton. naive_solver.
    + rewrite lookup_insert_eq. simpl.
      rewrite list_elem_of_singleton, elem_of_nil. naive_solver.
  - rewrite add_edge_lookup_ne by done. naive_solver.
Qed.

Lemma add_edge_NoDup (u v k : string) (e : gmap string (list string)) :
  NoDup (neighbours e k) → NoDup (neighbours (add_edge u (Some v) e) k).
Proof.
  unfold neighbours. destruct (decide (u = k)) as [->|Hne].
  - unfold add_edge. destruct (e !! k) as [l|] eqn:Hk.
    + destruct (decide (v ∈ l)) as [Hin|Hin].
      * by rewrite Hk.
      * rewrite lookup_insert_eq. simpl. intros Hnd.
        apply NoDup_app. split_and!; [done| |apply NoDup_singleton].
        intros x Hx ->%list_elem_of_singleton. done.
    + rewrite lookup_insert_eq. simpl. intros _. apply NoDup_singleton.
  - by rewrite add_edge_lookup_ne.
Qed.

(** Expansion only adds: edges that turn the lineage map around, between
    batches that the start of the walk is derived from, and sources. *)
Lemma add_edges_grows (n : nat) (m : gmap string (list string))
    (t0 : string) (self : t) :
  outcome (λ self',
             (∀ u v, v ∈ neighbours (edges self) u
                     → v ∈ neighbours (edges self') u)
             ∧ (∀ x, x ∈ sources self → x ∈ sources self')
             ∧ (∀ u v, v ∈ neighbours (edges self') u
                       → v ∈ neighbours (edges self) u
                         ∨ (derived_from m v u
                            ∧ rtc (derived_from m) t0 v))
             ∧ ((∀ u, NoDup (neighbours (edges self) u))
                → ∀ u, NoDup (neighbours (edges self') u)))
          (λ _, True) True (add_edges n m t0 self).
Proof.
  revert t0 self. induction n as [|n IH]; intros t0 self; simpl; [done|].
  destruct (m !! t0) as [l|] eqn:Hl; [|simpl; by auto].
  apply for_each_outcome; [by auto|].
  intros x s Hx (Hmono & Hsrc & Hsound & Hnd). simpl.
  assert (derived_from m t0 x) as Hstep by (by exists l).
  set (s1 := set_edges (add_edge x (Some t0) (edges s)) s).
  assert ((∀ u v, v ∈ neighbours (edges self) u
                  → v ∈ neighbours (edges s1) u)
          ∧ (∀ u v, v ∈ neighbours (edges s1) u
                    → v ∈ neighbours (edges self) u
                      ∨ (derived_from m v u ∧ rtc (derived_from m) t0 v))
          ∧ ((∀ u, NoDup (neighbours (edges self) u))
             → ∀ u, NoDup (neighbours (edges s1) u)))
    as (Hmono1 & Hsound1 & Hnd1).
  { simpl. split_and!.
    - intros u v Hv. apply add_edge_neighbours. left. by apply Hmono.
    - intros u v [Hv|[-> ->]]%add_edge_neighbours; [by apply Hsound|].
      right. split; [done|apply rtc_refl].
    - intros H0 u. apply add_edge_NoDup. by apply Hnd. }
  case_decide.
  - eapply outcome_mono; [apply IH| |done|done].
    intros s' (Hmono' & Hsrc' & Hsound' & Hnd'). split_and!.
    + intros u v Hv. by apply Hmono', Hmono1.
    + intros y Hy. by apply Hsrc', Hsrc.
    + intros u v Hv. destruct (Hsound' u v Hv) as [Hold|[Hd Hr]].
      * by apply Hsound1.
      * right. split; [done|]. by eapply rtc_l.
    + intros H0. by apply Hnd', Hnd1.
  - simpl. split_and!; [done| |done|done].
    intros y Hy. apply elem_of_app. left. by apply Hsrc.
Qed.

(** Expansion misses nothing: every lineage edge into a batch that the
    start of the walk is, or is derived from, is in the graph, and every
    batch without an entry that the start is derived from is a source. *)
Lemma add_edges_complete (n : nat) (m : gmap string (list string))
    (t0 : string) (self : t) :
  outcome (λ self',
             (∀ v u, rtc (derived_from m) t0 v → derived_from m v u
                     → v ∈ neighbours (edges self') u)
             ∧ (∀ x, tc (derived_from m) t0 x → m !! x = None
                     → x ∈ sources self'))
          (λ _, True) True (add_edges n m t0 self).
Proof.
  revert t0 self. induction n as [|n IH]; intros t0 self; simpl; [done|].
  destruct (m !! t0) as [l|] eqn:Hl.
  2:{ simpl. split.
      - intros v u [->|(y & (? & ? & _) & _)]%rtc_inv; [|congruence].
        intros (? & ? & _). congruence.
      - intros x Hx. apply derived_from_key in Hx as [? ?]. congruence. }
  eapply outcome_mono; [|intros a Ha; exact Ha| |]; cycle 1.
  { intros e He. exact He. } { intros HD. exact HD. }
  eapply outcome_mono.
  - apply (for_each_outcome_prefix
      (λ pre s,
         (∀ x, x ∈ pre → t0 ∈ neighbours (edges s) x)
         ∧ (∀ x v u, x ∈ pre → rtc (derived_from m) x v → derived_from m v u
                     → v ∈ neighbours (edges s) u)
         ∧ (∀ x y, x ∈ pre → x = y ∨ tc (derived_from m) x y →
                   m !! y = None → y ∈ sources s))
      (λ _, True) True).
    + split_and!; intros; by exfalso; eapply elem_of_nil.
    + intros pre x post s Hsplit (Hedge & Hreach & Hsrc). simpl.
      set (s1 := set_edges (add_edge x (Some t0) (edges s)) s).
      assert (∀ u v, v ∈ neighbours (edges s) u
                     → v ∈ neighbours (edges s1) u) as Hmono1.
      { intros u v Hv. simpl. apply add_edge_neighbours. by left. }
      assert (t0 ∈ neighbours (edges s1) x) as Hnew.
      { simpl. apply add_edge_neighbours. by right. }
      case_decide as Hkey.
      * pose proof (IH x s1) as Hrec.
        pose proof (add_edges_grows n m x s1) as Hgrow.
        destruct (add_edges n m x s1) as [s2| |]; simpl in *; [|done|done].
        destruct Hrec as (Hreach2 & Hsrc2).
        destruct Hgrow as (Hmono2 & Hsrcmono2 & _).
        split_and!.
        -- intros y [Hy| ->%list_elem_of_singleton]%elem_of_app.
           ++ by apply Hmono2, Hmono1, Hedge.
           ++ by apply Hmono2.
        -- intros y v u [Hy| ->%list_elem_of_singleton]%elem_of_app Hv Hu.
           ++ apply Hmono2, Hmono1. by eapply Hreach.
           ++ by apply Hreach2.
        -- intros y z [Hy| ->%list_elem_of_singleton]%elem_of_app Hz Hnone.
           ++ apply Hsrcmono2. by eapply Hsrc.
           ++ destruct Hz as [->|Hz]; [|by apply Hsrc2].
              destruct Hkey as [? ?]. congruence.
      * simpl. split_and!.
        -- intros y [Hy| ->%list_elem_of_singleton]%elem_of_app.
           ++ by apply Hmono1, Hedge.
           ++ done.
        -- intros y v u [Hy| ->%list_elem_of_singleton]%elem_of_app Hv Hu.
           ++ apply Hmono1. by eapply Hreach.
           ++ exfalso. apply Hkey.
              apply rtc_inv in Hv as [->|(z & (? & ? & _) & _)].
              ** destruct Hu as (? & ? & _). by eexists.
              ** by eexists.
        -- intros y z [Hy| ->%list_elem_of_singleton]%elem_of_app Hz Hnone.
           ++ apply elem_of_app. left. by eapply Hsrc.
           ++ destruct Hz as [->|Hz].
              ** apply elem_of_app. right. left.
              ** exfalso. apply Hkey. by eapply derived_from_key.
  - intros s' (Hedge & Hreach & Hsrc). simpl. split.
    + intros v u [->|(x & (l' & Hl' & Hx) & Hxv)]%rtc_inv Hu.
      * destruct Hu as (l' & Hl' & Hu). apply Hedge. congruence.
      * eapply Hreach; [|done|done]. congruence.
    + intros x Hx Hnone.
      inversion Hx as [? ? (l' & Hl' & Hin)|? y ? (l' & Hl' & Hin) Hrest];
        simplify_eq.
      * eapply Hsrc; [done|by left|done].
      * eapply Hsrc; [done|by right|done].
  - intros e He. exact He.
  - intros HD. exact HD.
Qed.

Lemma add_edges_nodes (n : nat) (m : gmap string (list string))
    (t0 : string) (self : t) :
  outcome (λ self', ∀ u, is_Some (edges self' !! u)
                         → is_Some (edges self !! u)
                           ∨ tc (derived_from m) t0 u)
          (λ _, True) True (add_edges n m t0 self).
Proof.
  revert t0 self. induction n as [|n IH]; intros t0 self; simpl; [done|].
  destruct (m !! t0) as [l|] eqn:Hl; [|simpl; by auto].
  apply for_each_outcome; [by auto|].
  intros x s Hx Hs. simpl.
  assert (derived_from m t0 x) as Hstep by (by exists l).
  assert (∀ u, is_Some (add_edge x (Some t0) (edges s) !! u)
               → is_Some (edges self !! u) ∨ tc (derived_from m) t0 u)
    as Hs1.
  { intros u Hu. destruct (decide (x = u)) as [<-|Hne].
    - right. by apply tc_once.
    - rewrite add_edge_lookup_ne in Hu by done. by apply Hs. }
  case_decide; [|done].
  eapply outcome_mono; [apply IH|simpl|done|done].
  intros s' Hs' u Hu. destruct (Hs' u Hu) as [Hold|Hnew]; [by apply Hs1|].
  right. by eapply tc_l.
Qed.

Lemma tc_last_step {A : Type} (R : relation A) (x z : A) :
  tc R x z → ∃ y, rtc R x y ∧ R y z.
Proof.
  induction 1 as [x z Hxz|x y z Hxy _ (w & Hyw & Hwz)].
  - exists x. split; [apply rtc_refl|done].
  - exists w. split; [by eapply rtc_l|done].
Qed.

(** The graph of a target, read against the lineage map. *)
Lemma expand_graph (n : nat) (m : gmap string (list string))
    (t0 : string) (self self' : t) :
  expand n m t0 self = Ok self' →
  (∀ u v, v ∈ neighbours (edges self') u
          ↔ derived_from m v u ∧ rtc (derived_from m) t0 v)
  ∧ (∀ u, is_Some (edges self' !! u)
          ↔ u = t0 ∨ tc (derived_from m) t0 u)
  ∧ (∀ u, NoDup (neighbours (edges self') u)).
Proof.
  intros Hrun. pose proof (expand_outcome n m t0 self) as Hexp.
  rewrite Hrun in Hexp. destruct Hexp as (_ & _ & _ & Ht0 & _).
  unfold expand in Hrun.
  match type of Hrun with add_edges _ _ _ ?s = _ => set (s0 := s) in * end.
  assert (∀ u, neighbours (edges s0) u = []) as Hempty.
  { intros u. unfold neighbours. simpl. unfold add_edge.
    destruct (decide (t0 = u)) as [->|Hne].
    - by rewrite lookup_insert_eq.
    - by rewrite lookup_insert_ne, lookup_empty. }
  pose proof (add_edges_grows n m t0 s0) as Hgrow.
  pose proof (add_edges_complete n m t0 s0) as Hcomp.
  pose proof (add_edges_nodes n m t0 s0) as Hnodes.
  rewrite Hrun in Hgrow, Hcomp, Hnodes. simpl in Hgrow, Hcomp, Hnodes.
  destruct Hgrow as (_ & _ & Hsound & Hnd). destruct Hcomp as (Hedge & _).
  split_and!.
  - intros u v. split.
    + intros Hv. destruct (Hsound u v Hv) as [Hold|Hnew]; [|done].
      change (v ∈ neighbours (edges s0) u) in Hold.
      rewrite Hempty in Hold. by apply elem_of_nil in Hold.
    + intros [Hd Hr]. by apply Hedge.
  - intros u. split.
    + intros Hu. destruct (Hnodes u Hu) as [Hold|Hnew]; [|by right].
      left. unfold add_edge in Hold.
      destruct (decide (t0 = u)) as [->|Hne]; [done|].
      rewrite lookup_insert_ne, lookup_empty in Hold by done.
      by destruct Hold.
    + intros [->|Hu]; [by rewrite Ht0|].
      apply tc_last_step in Hu as (v & Hv & Hvu).
      specialize (Hedge v u Hv Hvu). unfold neighbours in Hedge.
      destruct (edges self' !! u); [by eexists|].
      by apply elem_of_nil in Hedge.
  - apply Hnd. intros u.
    change (NoDup (neighbours (edges s0) u)). rewrite Hempty. constructor.
Qed.

(** X4.  The graph that the expansion for a target has built is the
    lineage map turned around and cut down to the target's ancestry: [v]
    is a neighbour of [u] exactly when the map lists [u] among the batches
    [v] was produced from and [v] is the target or a batch the target is
    derived from; the nodes are the target and the batches it is derived
    from; and no neighbour is listed twice. *)
Theorem derived_graph_is_lineage (n : nat) (m : gmap string (list string))
    (t0 : string) (self self' : t) :
  expand n m t0 self = Ok self' →
  (∀ u v, v ∈ neighbours (edges self') u
          ↔ derived_from m v u ∧ rtc (derived_from m) t0 v)
  ∧ (∀ u, is_Some (edges self' !! u)
          ↔ u = t0 ∨ tc (derived_from m) t0 u)
  ∧ (∀ u, NoDup (neighbours (edges self') u)).
Proof. apply expand_graph. Qed.

Lemma derived_graph_is_lineage_witness :
  expand 2 (BatchHistory.apply diamond) "D" init
  = Ok (Self diamond_graph [] ["A"; "A"] ∅ [(INFO, "Reconstructing Paths")])
  ∧ (∀ u v, v ∈ neighbours diamond_graph u
            ↔ derived_from (BatchHistory.apply diamond) v u
              ∧ rtc (derived_from (BatchHistory.apply diamond)) "D" v)
  ∧ (∀ u, is_Some (diamond_graph !! u)
          ↔ u = "D" ∨ tc (derived_from (BatchHistory.apply diamond)) "D" u)
  ∧ (∀ u, NoDup (neighbours diamond_graph u)).
Proof.
  assert (expand 2 (BatchHistory.apply diamond) "D" init
    = Ok (Self diamond_graph [] ["A"; "A"] ∅
               [(INFO, "Reconstructing Paths")])) as Hrun
    by (vm_compute; reflexivity).
  split; [exact Hrun|].
  exact (derived_graph_is_lineage _ _ _ _ _ Hrun).
Defined.

(** The recorded sources, read against the lineage map. *)
Lemma expand_sources (n : nat) (m : gmap string (list string))
    (t0 : string) (self self' : t) :
  expand n m t0 self = Ok self' →
  ∀ s, s ∈ sources self' ↔ tc (derived_from m) t0 s ∧ m !! s = None.
Proof.
  intros Hrun s. split.
  - intros Hs. pose proof (expand_outcome n m t0 self) as Hexp.
    rewrite Hrun in Hexp. destruct Hexp as (_ & _ & _ & _ & Hsrc).
    destruct (Hsrc s Hs) as (? & _ & ?). done.
  - intros [Hreach Hnone]. unfold expand in Hrun.
    match type of Hrun with add_edges _ _ _ ?s = _ =>
      pose proof (add_edges_complete n m t0 s) as Hcomp end.
    rewrite Hrun in Hcomp. destruct Hcomp as (_ & Hsrc). by apply Hsrc.
Qed.

(** When the expansion for a target has come back, no batch that the
    target is, or is derived from, is derived from itself. *)
Lemma expand_no_cycle (n : nat) (m : gmap string (list string))
    (t0 : string) (self self' : t) :
  expand n m t0 self = Ok self' →
  ∀ x, rtc (derived_from m) t0 x → ¬ tc (derived_from m) x x.
Proof.
  unfold expand. intros Hrun x Hreach Hcyc.
  by rewrite (add_edges_cycle m x Hcyc n t0) in Hrun.
Qed.

(** X5.  The sources that the expansion for a target records are, as a
    set, the batches without an entry in the lineage map that the target is
    derived from. *)
Theorem sources_are_the_roots (n : nat) (m : gmap string (list string))
    (t0 : string) (self self' : t) :
  expand n m t0 self = Ok self' →
  ∀ s, s ∈ sources self' ↔ tc (derived_from m) t0 s ∧ m !! s = None.
Proof. apply expand_sources. Qed.

Lemma sources_are_the_roots_witness :
  expand 2 (BatchHistory.apply diamond) "D" init
  = Ok (Self diamond_graph [] ["A"; "A"] ∅ [(INFO, "Reconstructing Paths")])
  ∧ ∀ s, s ∈ ["A"; "A"]
         ↔ tc (derived_from (BatchHistory.apply diamond)) "D" s
           ∧ BatchHistory.apply diamond !! s = None.
Proof.
  assert (expand 2 (BatchHistory.apply diamond) "D" init
    = Ok (Self diamond_graph [] ["A"; "A"] ∅
               [(INFO, "Reconstructing Paths")])) as Hrun
    by (vm_compute; reflexivity).
  split; [exact Hrun|].
  exact (sources_are_the_roots _ _ _ _ _ Hrun).
Defined.

(** ** What the search finds *)

Lemma linked_impl (E E' : string → string → Prop) (p : list string) :
  (∀ x y, x ∈ p → y ∈ p → E x y → E' x y) → linked E p → linked E' p.
Proof.
  induction p as [|x p IH]; [done|]. intros Himpl Hp.
  destruct p as [|y p]; [done|]. destruct Hp as [Hxy Hp]. split.
  - apply Himpl; [left|right; left|done].
  - apply IH; [|done]. intros a b Ha Hb. apply Himpl; by right.
Qed.

Lemma last_cons_cons {A : Type} (x y : A) (l : list A) :
  last (x :: y :: l) = last (y :: l).
Proof. reflexivity. Qed.

Lemma last_elem {A : Type} (l : list A) (x : A) : last l = Some x → x ∈ l.
Proof.
  induction l as [|y l IH]; [done|]. destruct l as [|z l].
  - intros [= ->]. left.
  - rewrite last_cons_cons. intros H. right. by apply IH.
Qed.

(** A walk that starts at its destination and repeats no node is the
    destination alone. *)
Lemma search_path_at_target (g : gmap string (list string)) (d : string)
    (visited : gmap string bool) (w : list string) :
  head w = Some d → search_path g d visited w → w = [d].
Proof.
  destruct w as [|x w]; [done|]. intros [= ->] (Hlast & _ & Hnd & _).
  destruct w as [|y w]; [done|]. exfalso.
  rewrite last_cons_cons in Hlast. apply last_elem in Hlast.
  by apply NoDup_cons in Hnd as [Hnd _].
Qed.

(** The walks from [u], when [u] is not the destination, are [u] followed
    by the walks from its neighbours that are not visited once [u] is. *)
Lemma search_path_step (g : gmap string (list string)) (u d : string)
    (visited : gmap string bool) (path q : list string) :
  u ≠ d →
  (∃ i w, i ∈ neighbours g u ∧ <[u:=true]> visited !! i = Some false
          ∧ q = (path ++ [u]) ++ w ∧ head w = Some i
          ∧ search_path g d (<[u:=true]> visited) w)
  ↔ (∃ w, q = path ++ w ∧ head w = Some u ∧ search_path g d visited w).
Proof.
  intros Hud. split.
  - intros (i & w & Hi & Hvi & -> & Hhead & Hlast & Hpath & Hnd & Hvis).
    destruct w as [|i' w]; [done|]. injection Hhead as ->.
    assert (i ≠ u) as Hiu.
    { intros ->. by rewrite lookup_insert_eq in Hvi. }
    exists (u :: i :: w). split; [by rewrite <- app_assoc|].
    split; [done|]. split_and!.
    + by rewrite last_cons_cons.
    + by split.
    + apply NoDup_cons. split; [|done].
      intros [?|Hin]%elem_of_cons; [done|].
      specialize (Hvis u Hin). by rewrite lookup_insert_eq in Hvis.
    + simpl. intros x [->|Hx]%elem_of_cons.
      * by rewrite lookup_insert_ne in Hvi.
      * specialize (Hvis x Hx).
        destruct (decide (u = x)) as [->|Hne];
          [by rewrite lookup_insert_eq in Hvis|].
        by rewrite lookup_insert_ne in Hvis.
  - intros (w & -> & Hhead & Hlast & Hpath & Hnd & Hvis).
    destruct w as [|u' w]; [done|]. injection Hhead as ->.
    destruct w as [|i w]; [simpl in Hlast; congruence|].
    destruct Hpath as [Hi Hpath].
    apply NoDup_cons in Hnd as [Hu Hnd].
    assert (∀ x, x ∈ i :: w → <[u:=true]> visited !! x = Some false) as Hv1.
    { intros x Hx. rewrite lookup_insert_ne; [by apply Hvis|].
      intros ->. done. }
    exists i, (i :: w). split_and!; try done.
    + apply Hv1. left.
    + by rewrite <- app_assoc.
    + split_and!; [done|done|done|].
      intros x Hx. apply Hv1. by right.
Qed.

(** The paths after a search are those before it and the walks from [u] to
    the destination, behind the current path. *)
Lemma determine_all_paths_util_paths (n : nat) (u d : string)
    (visited : gmap string bool) (path : list string)
    (g : gmap string (list string)) (self : t) :
  outcome (λ r, ∀ q, q ∈ paths r.2
                     ↔ q ∈ paths self
                       ∨ ∃ w, q = path ++ w ∧ head w = Some u
                              ∧ search_path g d visited w)
          (λ _, True) True
          (determine_all_paths_util n u d visited path g self).
Proof.
  revert u visited path self.
  induction n as [|n IH]; intros u visited path self; simpl; [done|].
  eapply (outcome_bind
    (λ r, r.1 = (<[u:=true]> visited, path ++ [u])
          ∧ ∀ q, q ∈ paths r.2
                 ↔ q ∈ paths self
                   ∨ ∃ w, q = path ++ w ∧ head w = Some u
                          ∧ search_path g d visited w)).
  - destruct (decide (u = d)) as [<-|Hud].
    + assert (∀ q, (∃ w, q = path ++ w ∧ head w = Some u
                         ∧ search_path g u visited w)
                   ↔ q = path ++ [u]) as Hone.
      { intros q. split.
        - intros (w & -> & Hhead & Hw).
          by rewrite (search_path_at_target g u visited w).
        - intros ->. exists [u]. split_and!; try done.
          split_and!; [done|done|apply NoDup_singleton|].
          by intros x ?%elem_of_nil. }
      case_decide as Hin; simpl; (split; [done|]); intros q; rewrite Hone.
      * split; [by left|]. by intros [?| ->].
      * rewrite elem_of_app, list_elem_of_singleton. done.
    + destruct (g !! u) as [adjacent|] eqn:Hu; [|done].
      eapply (outcome_mono
        (λ r,
           r.1 = (<[u:=true]> visited, path ++ [u])
           ∧ (∀ i, i ∈ adjacent → i ∈ adjacent)
           ∧ ∀ q, q ∈ paths r.2
                  ↔ q ∈ paths self
                    ∨ ∃ i w, i ∈ adjacent
                             ∧ <[u:=true]> visited !! i = Some false
                             ∧ q = (path ++ [u]) ++ w ∧ head w = Some i
                             ∧ search_path g d (<[u:=true]> visited) w)
        _ (λ _, True) _ True); cycle 1.
      { intros r Hr. split; [apply Hr|]. intros q.
        destruct Hr as (_ & _ & ->).
        rewrite <- (search_path_step g u d visited path q Hud).
        unfold neighbours. rewrite Hu. simpl. done. }
      { intros e He. exact He. } { intros HD. exact HD. }
      apply (for_each_outcome_prefix
        (λ pre r,
           r.1 = (<[u:=true]> visited, path ++ [u])
           ∧ (∀ i, i ∈ pre → i ∈ adjacent)
           ∧ ∀ q, q ∈ paths r.2
                  ↔ q ∈ paths self
                    ∨ ∃ i w, i ∈ pre
                             ∧ <[u:=true]> visited !! i = Some false
                             ∧ q = (path ++ [u]) ++ w ∧ head w = Some i
                             ∧ search_path g d (<[u:=true]> visited) w)
        (λ _, True) True).
      * split_and!; [done|by intros ? ?%elem_of_nil|]. intros q.
        split; [by left|]. intros [?|(i & ? & ?%elem_of_nil & _)]; done.
      * intros pre i post [[v p] s] Hsplit ([= -> ->] & Hsub & Hq).
        destruct (<[u:=true]> visited !! i) as [[|]|] eqn:Hvi; simpl;
          [| |done].
        -- split_and!; [done| |].
           ++ intros j [Hj| ->%list_elem_of_singleton]%elem_of_app;
                [by apply Hsub|].
              rewrite Hsplit. apply elem_of_app. right. left.
           ++ intros q. rewrite Hq. split.
              ** intros [?|(j & w & Hj & Hrest)]; [by left|].
                 right. exists j, w. split; [|done].
                 apply elem_of_app. by left.
              ** intros [?|(j & w & Hj & Hvj & Hrest)]; [by left|].
                 apply elem_of_app in Hj as [Hj| ->%list_elem_of_singleton].
                 --- right. by exists j, w.
                 --- congruence.
        -- eapply outcome_mono;
             [apply outcome_and;
               [apply IH|apply determine_all_paths_util_outcome]
             | |done|done].
           intros [[v' p'] s'] (Hnew & -> & -> & _). simpl in *.
           split_and!; [by rewrite (insert_id _ _ _ Hvi)| |].
           ++ intros j [Hj| ->%list_elem_of_singleton]%elem_of_app;
                [by apply Hsub|].
              rewrite Hsplit. apply elem_of_app. right. left.
           ++ intros q. rewrite Hnew, Hq. split.
              ** intros [[?|(j & w & Hj & Hrest)]|(w & Hw)].
                 --- by left.
                 --- right. exists j, w. split; [|done].
                     apply elem_of_app. by left.
                 --- right. exists i, w. split; [|by split].
                     apply elem_of_app. right. left.
              ** intros [?|(j & w & Hj & Hvj & Hrest)]; [by left; left|].
                 apply elem_of_app in Hj as [Hj| ->%list_elem_of_singleton].
                 --- left. right. by exists j, w.
                 --- right. by exists w.
  - intros [[v p] s] ([= -> ->] & Hq). rewrite pop_snoc. by simpl.
Qed.

Lemma graph_path_tail_nodes (g : gmap string (list string))
    (q : list string) :
  closed g → graph_path g q → ∀ x, x ∈ tail q → is_Some (g !! x).
Proof.
  intros Hcl. induction q as [|x q IH]; [by intros _ ? ?%elem_of_nil|].
  destruct q as [|y q]; [by intros _ ? ?%elem_of_nil|].
  intros [Hy Hq] z Hz. simpl in Hz.
  apply elem_of_cons in Hz as [->|Hz]; [|by apply IH].
  unfold neighbours in Hy. destruct (g !! x) as [l|] eqn:Hx.
  - by eapply Hcl.
  - by apply elem_of_nil in Hy.
Qed.

Lemma determine_all_paths_paths (n : nat) (s d : string)
    (g : gmap string (list string)) (self : t) :
  closed g →
  outcome (λ self', ∀ q, q ∈ paths self'
                         ↔ q ∈ paths self
                           ∨ (head q = Some s ∧ last q = Some d
                              ∧ graph_path g q ∧ NoDup q))
          (λ _, True) True (determine_all_paths n s d g self).
Proof.
  intros Hcl. unfold determine_all_paths.
  eapply outcome_bind; [apply determine_all_paths_util_paths|].
  intros [[v p] s'] Hq. simpl in *. intros q. rewrite Hq.
  apply or_iff_compat_l. split.
  - intros (w & -> & Hhead & Hlast & Hpath & Hnd & _). done.
  - intros (Hhead & Hlast & Hpath & Hnd). exists q.
    split; [done|]. split; [done|]. unfold search_path.
    split_and!; try done. intros x Hx. rewrite lookup_fmap.
    destruct (graph_path_tail_nodes g q Hcl Hpath x Hx) as [l ->]. done.
Qed.

(** X6.  On a graph that names only its own nodes as neighbours, the
    search from [s] to [d] adds to [paths] exactly the walks from [s] to
    [d] along edges of the graph that repeat no node, and takes nothing
    away. *)
Theorem search_finds_simple_paths (n : nat) (s d : string)
    (g : gmap string (list string)) (self self' : t) :
  closed g →
  determine_all_paths n s d g self = Ok self' →
  ∀ q, q ∈ paths self'
       ↔ q ∈ paths self
         ∨ (head q = Some s ∧ last q = Some d
            ∧ graph_path g q ∧ NoDup q).
Proof.
  intros Hcl Hrun.
  pose proof (determine_all_paths_paths n s d g self Hcl) as Hout.
  by rewrite Hrun in Hout.
Qed.

Lemma search_finds_simple_paths_witness :
  closed diamond_graph
  ∧ determine_all_paths 3 "A" "D" diamond_graph init
    = Ok (set_paths [["A"; "B"; "D"]; ["A"; "C"; "D"]] init)
  ∧ ∀ q, q ∈ [["A"; "B"; "D"]; ["A"; "C"; "D"]]
         ↔ q ∈ []
           ∨ (head q = Some "A" ∧ last q = Some "D"
              ∧ graph_path diamond_graph q ∧ NoDup q).
Proof.
  assert (closed diamond_graph) as Hcl.
  { pose proof (expand_outcome 2 (BatchHistory.apply diamond) "D" init)
      as Hexp.
    assert (expand 2 (BatchHistory.apply diamond) "D" init
      = Ok (Self diamond_graph [] ["A"; "A"] ∅
                 [(INFO, "Reconstructing Paths")])) as Hrun
      by (vm_compute; reflexivity).
    rewrite Hrun in Hexp. apply Hexp. }
  assert (determine_all_paths 3 "A" "D" diamond_graph init
    = Ok (set_paths [["A"; "B"; "D"]; ["A"; "C"; "D"]] init)) as Hrun
    by (vm_compute; reflexivity).
  split; [exact Hcl|]. split; [exact Hrun|].
  exact (search_finds_simple_paths 3 "A" "D" diamond_graph init _ Hcl Hrun).
Defined.

(** ** The paths of a target are its ancestries *)

Lemma lineage_chain_tc (m : gmap string (list string)) (t0 s : string)
    (w : list string) :
  w ≠ [] → last (s :: w) = Some t0 → lineage_chain m (s :: w) →
  tc (derived_from m) t0 s.
Proof.
  revert s. induction w as [|y w IH]; intros s Hne Hlast Hchain; [done|].
  destruct Hchain as [Hys Hchain]. destruct w as [|z w].
  - injection Hlast as ->. by apply tc_once.
  - eapply tc_r; [|exact Hys]. apply IH; [done| |done].
    by rewrite last_cons_cons in Hlast.
Qed.

Lemma lineage_chain_rtc (m : gmap string (list string)) (t0 : string)
    (q : list string) :
  last q = Some t0 → lineage_chain m q →
  ∀ x, x ∈ q → rtc (derived_from m) t0 x.
Proof.
  induction q as [|s w IH]; [by intros _ _ ? ?%elem_of_nil|].
  intros Hlast Hchain x Hx. destruct w as [|y w].
  - injection Hlast as ->. apply list_elem_of_singleton in Hx as ->.
    apply rtc_refl.
  - apply elem_of_cons in Hx as [->|Hx].
    + apply tc_rtc. by apply (lineage_chain_tc m t0 _ (y :: w)).
    + destruct Hchain as [_ Hchain]. rewrite last_cons_cons in Hlast.
      by apply IH.
Qed.

Lemma lineage_chain_back (m : gmap string (list string)) (x y : string)
    (w : list string) :
  lineage_chain m (x :: w) → y ∈ w → tc (derived_from m) y x.
Proof.
  revert x. induction w as [|z w IH]; intros x Hchain Hy;
    [by apply elem_of_nil in Hy|].
  destruct Hchain as [Hzx Hchain].
  apply elem_of_cons in Hy as [->|Hy]; [by apply tc_once|].
  eapply tc_r; [|exact Hzx]. by apply IH.
Qed.

(** A chain repeats no batch unless one of its batches is derived from
    itself. *)
Lemma lineage_chain_NoDup (m : gmap string (list string))
    (q : list string) :
  lineage_chain m q →
  NoDup q ∨ ∃ x, x ∈ q ∧ tc (derived_from m) x x.
Proof.
  induction q as [|x q IH]; [left; constructor|]. intros Hchain.
  assert (lineage_chain m q) as Hq.
  { destruct q as [|y q]; [done|]. by destruct Hchain. }
  destruct (IH Hq) as [Hnd|(y & Hy & Hcyc)].
  - destruct (decide (x ∈ q)) as [Hin|Hin].
    + right. exists x. split; [left|].
      by apply (lineage_chain_back m x x q).
    + left. by constructor.
  - right. exists y. split; [by right|done].
Qed.

(** The paths recorded for a target are exactly its ancestries. *)
Lemma apply_one_paths (n : nat) (m : gmap string (list string))
    (t0 : string) (self self' : t) :
  apply_one n m t0 self = Ok self' →
  ∀ q, q ∈ paths self' ↔ ancestry m t0 q.
Proof.
  unfold apply_one.
  intros (e1 & He1 & (s & Hs & [= <-])%bind_Ok)%bind_Ok. simpl.
  pose proof (expand_outcome n m t0 self) as Hexp.
  rewrite He1 in Hexp. destruct Hexp as (Hp & _ & Hcl & _ & _).
  destruct (expand_graph n m t0 self e1 He1) as (Hedge & _ & _).
  pose proof (expand_no_cycle n m t0 self e1 He1) as Hnocyc.
  pose proof (expand_sources n m t0 self e1 He1) as Hsrc.
  assert (∀ q, q ∈ paths s
               ↔ ∃ src, src ∈ sources e1 ∧ head q = Some src
                        ∧ last q = Some t0 ∧ graph_path (edges e1) q
                        ∧ NoDup q) as Hpaths.
  { pose proof (for_each_outcome_prefix
      (λ pre s, s = set_paths (paths s) e1
                ∧ ∀ q, q ∈ paths s
                       ↔ ∃ src, src ∈ pre ∧ head q = Some src
                                ∧ last q = Some t0
                                ∧ graph_path (edges e1) q ∧ NoDup q)
      (λ _, True) True
      (λ source s, determine_all_paths n source t0 (edges s) s)
      (sources e1) e1) as Hloop.
    rewrite Hs in Hloop. apply Hloop.
    - split; [by destruct e1|]. intros q. rewrite Hp. split.
      + by intros ?%elem_of_nil.
      + by intros (? & ?%elem_of_nil & _).
    - intros pre x post a _ (Ha & Hq).
      assert (edges a = edges e1) as -> by (by rewrite Ha).
      eapply outcome_mono;
        [apply outcome_and;
          [apply (determine_all_paths_paths n x t0 (edges e1) a Hcl)
          |apply determine_all_paths_outcome]
        | |done|done].
      intros a' (Hnew & Ha' & _). split.
      + rewrite Ha', Ha. by destruct e1.
      + intros q. rewrite Hnew, Hq. split.
        * intros [(src & Hin & Hrest)|Hrest].
          -- exists src. split; [|done]. apply elem_of_app. by left.
          -- exists x. split; [|done]. apply elem_of_app. right. left.
        * intros (src & [Hin| ->%list_elem_of_singleton]%elem_of_app
                  & Hrest).
          -- left. by exists src.
          -- by right. }
  intros q. rewrite Hpaths. split.
  - intros (src & Hin & Hhead & Hlast & Hpath & Hnd).
    apply Hsrc in Hin as [Hreach Hnone].
    destruct q as [|s' w]; [done|]. injection Hhead as ->.
    exists src, w. split_and!; try done.
    + intros ->. injection Hlast as ->.
      apply derived_from_key in Hreach as [? ?]. congruence.
    + eapply linked_impl; [|exact Hpath].
      intros x y _ _ Hy. by apply Hedge in Hy as [? _].
  - intros (src & w & -> & Hne & Hnone & Hlast & Hchain).
    exists src. split_and!; try done.
    + apply Hsrc. split; [|done]. by apply (lineage_chain_tc m t0 src w).
    + eapply linked_impl; [|exact Hchain].
      intros x y _ Hy Hyx. apply Hedge. split; [done|].
      by apply (lineage_chain_rtc m t0 (src :: w)).
    + destruct (lineage_chain_NoDup m (src :: w) Hchain)
        as [Hnd|(x & Hx & Hcyc)]; [done|].
      exfalso. apply (Hnocyc x); [|done].
      by apply (lineage_chain_rtc m t0 (src :: w)).
Qed.

Lemma apply_one_paths_NoDup (n : nat) (m : gmap string (list string))
    (t0 : string) (self self' : t) (q : list string) :
  apply_one n m t0 self = Ok self' → q ∈ paths self' → NoDup q.
Proof.
  intros Hrun Hq. pose proof Hrun as Hrun'.
  apply (apply_one_paths n m t0 self self' Hrun q) in Hq
    as (s & w & -> & _ & _ & Hlast & Hchain).
  unfold apply_one in Hrun'. apply bind_Ok in Hrun' as (e1 & He1 & _).
  destruct (lineage_chain_NoDup m (s :: w) Hchain)
    as [Hnd|(x & Hx & Hcyc)]; [done|].
  exfalso. apply (expand_no_cycle n m t0 self e1 He1 x); [|done].
  by apply (lineage_chain_rtc m t0 (s :: w)).
Qed.

(** X7.  In the dictionary that [apply] returns, the list of a target of
    the call holds exactly the ancestries of the target: the chains of two
    or more batches, each among those the next was produced from, that
    start at a batch without an entry in the lineage map and end at the
    target.  No such path repeats a batch. *)
Theorem paths_are_the_ancestries (n : nat) (m : gmap string (list string))
    (targets : list string) (self self' : t)
    (pd : gmap string (list (list string))) (t0 : string) :
  apply n m targets self = Ok (self', pd) →
  t0 ∈ targets →
  (∀ q, q ∈ default [] (pd !! t0) ↔ ancestry m t0 q)
  ∧ (∀ q, q ∈ default [] (pd !! t0) → NoDup q).
Proof.
  intros (s & Hs & -> & ->)%apply_Ok Hin.
  destruct (apply_loop_entry n m targets self s t0 Hs Hin init)
    as (s1 & Hs1 & ->). simpl. split.
  - by apply (apply_one_paths n m t0 init).
  - intros q. by apply (apply_one_paths_NoDup n m t0 init).
Qed.

Lemma paths_are_the_ancestries_witness :
  apply 3 (BatchHistory.apply diamond) ["D"] init
  = Ok (Self diamond_graph [["A"; "B"; "D"]; ["A"; "C"; "D"]] ["A"; "A"]
             {["D" := [["A"; "B"; "D"]; ["A"; "C"; "D"]]]}
             [(INFO, "Reconstructing Paths");
              (INFO, "Finished reconstructing paths.")],
        {["D" := [["A"; "B"; "D"]; ["A"; "C"; "D"]]]})
  ∧ "D" ∈ ["D"]
  ∧ (∀ q, q ∈ default [] (({["D" := [["A"; "B"; "D"]; ["A"; "C"; "D"]]]}
                            : gmap string (list (list string))) !! "D")
          ↔ ancestry (BatchHistory.apply diamond) "D" q)
  ∧ (∀ q, q ∈ default [] (({["D" := [["A"; "B"; "D"]; ["A"; "C"; "D"]]]}
                            : gmap string (list (list string))) !! "D")
          → NoDup q).
Proof.
  assert (apply 3 (BatchHistory.apply diamond) ["D"] init
    = Ok (Self diamond_graph [["A"; "B"; "D"]; ["A"; "C"; "D"]] ["A"; "A"]
               {["D" := [["A"; "B"; "D"]; ["A"; "C"; "D"]]]}
               [(INFO, "Reconstructing Paths");
                (INFO, "Finished reconstructing paths.")],
          {["D" := [["A"; "B"; "D"]; ["A"; "C"; "D"]]]})) as Hrun
    by (vm_compute; reflexivity).
  assert ("D" ∈ ["D"]) as Hin by left.
  split; [exact Hrun|]. split; [exact Hin|].
  exact (paths_are_the_ancestries _ _ _ _ _ _ _ Hrun Hin).
Defined.

Lemma derived_from_rows (df : list BatchHistory.row) (x y : string) :
  derived_from (BatchHistory.apply df) y x ↔ BatchHistory.Row x y ∈ df.
Proof.
  rewrite <- BatchHistory_apply_elem. unfold derived_from. split.
  - intros (l & -> & Hx). done.
  - destruct (BatchHistory.apply df !! y) as [l|]; simpl.
    + intros Hx. by exists l.
    + by intros ?%elem_of_nil.
Qed.

(** X8.  From the rows to the paths: when the lineage map is the one built
    from the rows [df], the paths returned for a target are exactly the
    lists of two or more batches in which every batch is the FROM batch of
    a row whose TO batch is the next one, that end at the target and start
    at a batch that is the TO batch of no row. *)
Theorem rows_to_paths (n : nat) (df : list BatchHistory.row)
    (targets : list string) (self self' : t)
    (pd : gmap string (list (list string))) (t0 : string) :
  apply n (BatchHistory.apply df) targets self = Ok (self', pd) →
  t0 ∈ targets →
  ∀ q, q ∈ default [] (pd !! t0)
       ↔ ∃ s w, q = s :: w ∧ w ≠ []
                ∧ (∀ x, BatchHistory.Row x s ∉ df)
                ∧ last q = Some t0
                ∧ linked (λ x y, BatchHistory.Row x y ∈ df) q.
Proof.
  intros (a & Ha & -> & ->)%apply_Ok Hin q.
  destruct (apply_loop_entry n _ targets self a t0 Ha Hin init)
    as (s1 & Hs1 & ->). simpl.
  rewrite (apply_one_paths n _ t0 init s1 Hs1 q). unfold ancestry.
  assert (∀ s, BatchHistory.apply df !! s = None
               ↔ ∀ x, BatchHistory.Row x s ∉ df) as Hnone.
  { intros s. destruct (lineage_map_keys df s) as [Hk1 Hk2]. split.
    - intros Hs x Hx. destruct Hk2 as [? ?]; [by exists x|congruence].
    - intros Hno. apply eq_None_not_Some. intros [x Hx]%Hk1.
      by apply (Hno x). }
  split; intros (s & w & -> & Hne & Hsrc & Hlast & Hchain);
    exists s, w; split_and!; try done; try (by apply Hnone).
  - eapply linked_impl; [|exact Hchain].
    intros x y _ _. apply derived_from_rows.
  - eapply linked_impl; [|exact Hchain].
    intros x y _ _. apply derived_from_rows.
Qed.

Lemma rows_to_paths_witness :
  apply 3 (BatchHistory.apply diamond) ["D"] init
  = Ok (Self diamond_graph [["A"; "B"; "D"]; ["A"; "C"; "D"]] ["A"; "A"]
             {["D" := [["A"; "B"; "D"]; ["A"; "C"; "D"]]]}
             [(INFO, "Reconstructing Paths");
              (INFO, "Finished reconstructing paths.")],
        {["D" := [["A"; "B"; "D"]; ["A"; "C"; "D"]]]})
  ∧ "D" ∈ ["D"]
  ∧ ∀ q, q ∈ default [] (({["D" := [["A"; "B"; "D"]; ["A"; "C"; "D"]]]}
                           : gmap string (list (list string))) !! "D")
         ↔ ∃ s w, q = s :: w ∧ w ≠ []
                  ∧ (∀ x, BatchHistory.Row x s ∉ diamond)
                  ∧ last q = Some "D"
                  ∧ linked (λ x y, BatchHistory.Row x y ∈ diamond) q.
Proof.
  assert (apply 3 (BatchHistory.apply diamond) ["D"] init
    = Ok (Self diamond_graph [["A"; "B"; "D"]; ["A"; "C"; "D"]] ["A"; "A"]
               {["D" := [["A"; "B"; "D"]; ["A"; "C"; "D"]]]}
               [(INFO, "Reconstructing Paths");
                (INFO, "Finished reconstructing paths.")],
          {["D" := [["A"; "B"; "D"]; ["A"; "C"; "D"]]]})) as Hrun
    by (vm_compute; reflexivity).
  assert ("D" ∈ ["D"]) as Hin by left.
  split; [exact Hrun|]. split; [exact Hin|].
  exact (rows_to_paths _ _ _ _ _ _ _ Hrun Hin).
Defined.

(** ** When the reconstruction comes back *)

(** The depth of the backward walk is bounded as soon as no batch that the
    walk can reach is derived from itself. *)
Lemma add_edges_returns_local (m : gmap string (list string))
    (root : string) :
  (∀ c, rtc (derived_from m) root c → ¬ tc (derived_from m) c c) →
  ∀ n t0 (seen : gset string) self,
    rtc (derived_from m) root t0 →
    t0 ∈ seen →
    (∀ p, p ∈ seen → rtc (derived_from m) p t0) →
    size (dom m ∖ seen) < n →
    outcome (λ _, True) (λ _, False) False (add_edges n m t0 self).
Proof.
  intros Hloc. induction n as [|n IH];
    intros t0 seen self Hroot Ht Hseen Hsize; [lia|]. simpl.
  destruct (m !! t0) as [l|] eqn:Hl; [|by simpl].
  apply for_each_outcome; [done|].
  intros x s Hx _. simpl. case_decide as Hkey; [|done].
  assert (derived_from m t0 x) as Hstep by (by exists l).
  assert (x ∉ seen) as Hfresh.
  { intros Hin. apply (Hloc x); [by eapply rtc_r|].
    eapply tc_rtc_l; [by apply Hseen|]. by apply tc_once. }
  apply (IH x (seen ∪ {[x]})).
  - by eapply rtc_r.
  - apply elem_of_union_r. by apply elem_of_singleton.
  - intros p [Hp| ->%elem_of_singleton]%elem_of_union; [|apply rtc_refl].
    eapply rtc_r; [by apply Hseen|done].
  - assert (dom m ∖ (seen ∪ {[x]}) ⊂ dom m ∖ seen) as Hlt.
    { apply elem_of_dom in Hkey. split.
      - intros y [Hy Hn]%elem_of_difference. apply elem_of_difference.
        split; [done|]. intros Hin. apply Hn. by apply elem_of_union_l.
      - intros Hsub. assert (x ∈ dom m ∖ (seen ∪ {[x]})) as Hbad
          by (apply Hsub, elem_of_difference; done).
        apply elem_of_difference in Hbad as [_ Hbad]. apply Hbad.
        apply elem_of_union_r. by apply elem_of_singleton. }
    apply subset_size in Hlt. lia.
Qed.

Lemma apply_one_returns_local (m : gmap string (list string)) (t0 : string)
    (self : t) :
  (∀ c, rtc (derived_from m) t0 c → ¬ tc (derived_from m) c c) →
  ∃ n self', apply_one n m t0 self = Ok self'.
Proof.
  intros Hloc.
  pose proof (expand_outcome (S (size m)) m t0 self) as Hexp.
  assert (∃ e1, expand (S (size m)) m t0 self = Ok e1) as [e1 He1].
  { unfold expand.
    pose proof (add_edges_returns_local m t0 Hloc (S (size m)) t0 {[t0]})
      as Hret.
    match goal with
    | |- ∃ e1, add_edges _ _ _ ?s0 = Ok e1 => specialize (Hret s0)
    end.
    assert (size (dom m ∖ {[t0]}) < S (size m)) as Hsz.
    { pose proof (subseteq_size (dom m ∖ {[t0]}) (dom m)) as Hsz.
      rewrite size_dom in Hsz. apply Nat.lt_succ_r, Hsz.
      intros y [Hy _]%elem_of_difference. done. }
    specialize (Hret (rtc_refl _ _) ltac:(by apply elem_of_singleton)).
    destruct (add_edges _ _ _ _) as [e1| |]; [by exists e1|exfalso..];
      apply Hret; try done;
      intros p ->%elem_of_singleton; apply rtc_refl. }
  rewrite He1 in Hexp. destruct Hexp as (Hp & Hd & Hcl & Ht0 & Hsrc).
  set (n := S (size m) `max` S (size (edges e1))).
  assert (outcome (λ s, s = set_paths (paths s) e1) (λ _, False) False
            (for_each (λ source s, determine_all_paths n source t0
                                     (edges s) s) (sources e1) e1))
    as Hloop.
  { apply for_each_outcome; [by destruct e1|].
    intros x s Hx Hs. simpl.
    eapply outcome_mono; [apply determine_all_paths_outcome| | |].
    - intros s' (Hs' & _). rewrite Hs', Hs. by destruct e1.
    - intros e Hbad. apply Hbad. rewrite Hs. simpl.
      split; [done|]. by apply Hsrc.
    - intros Hbad. apply Hbad. rewrite Hs. simpl. lia. }
  destruct (for_each _ _ _) as [s| |] eqn:Hs; [|done|done].
  exists n. eexists. unfold apply_one. apply bind_Ok.
  exists e1. split.
  { unfold expand in *. eapply add_edges_fuel_mono; [|exact He1]. lia. }
  apply bind_Ok. exists s. split; [exact Hs|done].
Qed.

(** X9.  [apply] comes back, at some depth bound, exactly when no target
    of the call is, or is derived from, a batch that is derived from
    itself.  A cycle of the lineage map that no target leads to does no
    harm. *)
Theorem reconstruction_returns_iff (m : gmap string (list string))
    (targets : list string) (self : t) :
  (∃ n r, apply n m targets self = Ok r)
  ↔ ∀ t0 c, t0 ∈ targets → rtc (derived_from m) t0 c
            → ¬ tc (derived_from m) c c.
Proof.
  split.
  - intros (n & [self' pd] & (s & Hs & _)%apply_Ok) t0 c Hin Hreach.
    destruct (apply_loop_entry n m targets self s t0 Hs Hin init)
      as (s1 & Hs1 & _).
    unfold apply_one in Hs1. apply bind_Ok in Hs1 as (e1 & He1 & _).
    by apply (expand_no_cycle n m t0 init e1 He1).
  - revert self. induction targets as [|x l IH]; intros self Hloc.
    + exists 0. by eexists.
    + destruct (apply_one_returns_local m x self) as (n1 & s1 & Hs1).
      { intros c. apply Hloc. left. }
      destruct (IH s1) as (n2 & [s2 pd] & (s & Hs & _)%apply_Ok).
      { intros t0 c Hin. apply Hloc. by right. }
      exists (n1 `max` n2). eexists. apply apply_Ok. exists s.
      split; [|done]. rewrite for_each_cons.
      rewrite (apply_one_fuel_mono n1 _ m x self s1); [|lia|done]. simpl.
      eapply apply_loop_fuel_mono; [|exact Hs]. lia.
Qed.

(** ** What is handed to the logger *)

Lemma add_edges_logger (n : nat) (m : gmap string (list string))
    (t0 : string) (self : t) :
  is_Some (m !! t0) →
  outcome (λ self', logger self' = logger self) (λ _, True) True
          (add_edges n m t0 self).
Proof.
  revert t0 self. induction n as [|n IH]; intros t0 self Hkey; simpl; [done|].
  destruct (m !! t0) as [l|]; [|by destruct Hkey].
  apply for_each_outcome; [done|].
  intros x s _ Hs. simpl. case_decide; [|done].
  eapply outcome_mono; [by apply IH|simpl|done|done].
  intros s' ->. done.
Qed.

Lemma error_records_snoc (m : gmap string (list string))
    (targets : list string) (t0 : string) :
  error_records m (targets ++ [t0])
  = error_records m targets
    ++ (if decide (m !! t0 = None) then [(ERROR, not_found t0)] else []).
Proof.
  unfold error_records. rewrite filter_app, fmap_app. f_equal.
  destruct (decide (m !! t0 = None)).
  - by rewrite filter_cons_True by done.
  - by rewrite filter_cons_False by done.
Qed.

Lemma apply_one_logger (n : nat) (m : gmap string (list string))
    (t0 : string) (self : t) :
  outcome (λ self', logger self'
                    = logger self
                      ++ (if decide (m !! t0 = None)
                          then [(ERROR, not_found t0)] else []))
          (λ _, True) True (apply_one n m t0 self).
Proof.
  unfold apply_one.
  eapply (outcome_bind (λ e1, logger e1
            = logger self ++ (if decide (m !! t0 = None)
                              then [(ERROR, not_found t0)] else []))).
  - unfold expand. destruct (decide (m !! t0 = None)) as [Hnone|Hkey].
    + destruct n as [|n]; simpl; [done|]. by rewrite Hnone.
    + eapply outcome_mono;
        [apply add_edges_logger; by apply not_eq_None_Some
        |simpl|done|done].
      intros s' ->. by rewrite app_nil_r.
  - intros e1 He1. eapply outcome_bind.
    + apply (for_each_outcome (λ s, logger s = logger e1)
               (λ _, True) True); [done|].
      intros x s _ Hs.
      eapply outcome_mono; [apply determine_all_paths_outcome| |done|done].
      intros s' (-> & _). done.
    + intros s Hs. simpl. by rewrite Hs.
Qed.

(** X10.  A call of [apply] that comes back hands to the logger one error
    record for each target that has no entry in the lineage map, in the
    order of the targets and once per occurrence, then the closing
    record, and nothing else. *)
Theorem apply_logs_unknown_targets (n : nat)
    (m : gmap string (list string)) (targets : list string)
    (self self' : t) (pd : gmap string (list (list string))) :
  apply n m targets self = Ok (self', pd) →
  logger self'
  = logger self ++ error_records m targets
    ++ [(INFO, "Finished reconstructing paths.")].
Proof.
  intros (s & Hs & -> & _)%apply_Ok. simpl.
  rewrite app_assoc. f_equal. revert s Hs.
  induction targets as [|x l IH] using rev_ind; intros s Hs.
  - injection Hs as <-. by rewrite app_nil_r.
  - rewrite for_each_app in Hs. apply bind_Ok in Hs as (a & Ha & Hx).
    simpl in Hx. apply bind_Ok in Hx as (b & Hb & [= <-]).
    pose proof (apply_one_logger n m x a) as Hlog. rewrite Hb in Hlog.
    simpl in Hlog. rewrite Hlog, (IH a Ha), error_records_snoc.
    by rewrite app_assoc.
Qed.

Lemma apply_logs_unknown_targets_witness :
  apply 3 (BatchHistory.apply diamond) ["X"; "B"; "X"] init
  = Ok (Self {["X" := []]} [] []
             (<["B" := [["A"; "B"]]]> {["X" := []]})
             [(INFO, "Reconstructing Paths");
              (ERROR, "X not found in the Batch dictionary.");
              (ERROR, "X not found in the Batch dictionary.");
              (INFO, "Finished reconstructing paths.")],
        <["B" := [["A"; "B"]]]> {["X" := []]})
  ∧ [(INFO, "Reconstructing Paths");
     (ERROR, "X not found in the Batch dictionary.");
     (ERROR, "X not found in the Batch dictionary.");
     (INFO, "Finished reconstructing paths.")]
    = logger init
      ++ error_records (BatchHistory.apply diamond) ["X"; "B"; "X"]
      ++ [(INFO, "Finished reconstructing paths.")].
Proof.
  assert (apply 3 (BatchHistory.apply diamond) ["X"; "B"; "X"] init
    = Ok (Self {["X" := []]} [] []
               (<["B" := [["A"; "B"]]]> {["X" := []]})
               [(INFO, "Reconstructing Paths");
                (ERROR, "X not found in the Batch dictionary.");
                (ERROR, "X not found in the Batch dictionary.");
                (INFO, "Finished reconstructing paths.")],
          <["B" := [["A"; "B"]]]> {["X" := []]})) as Hrun
    by (vm_compute; reflexivity).
  split; [exact Hrun|].
  exact (apply_logs_unknown_targets _ _ _ _ _ _ Hrun).
Defined.

(** ** The order of the targets *)

(** The loop over the targets comes back exactly when the work for each
    target does, started from any instance. *)
Lemma apply_loop_Ok (n : nat) (m : gmap string (list string))
    (targets : list string) (self : t) :
  (∀ t0, t0 ∈ targets → ∃ r, apply_one n m t0 init = Ok r) →
  ∃ s, for_each (apply_one n m) targets self = Ok s.
Proof.
  revert self. induction targets as [|x l IH]; intros self Hall.
  - by exists self.
  - destruct (Hall x ltac:(left)) as [r Hr].
    pose proof (apply_one_same n m x self init) as Hsame.
    rewrite Hr in Hsame.
    destruct (apply_one n m x self) as [a| |] eqn:Ha; [|done|done].
    destruct (IH a) as [s Hs]; [intros t0 Hin; apply Hall; by right|].
    exists s. by rewrite for_each_cons, Ha.
Qed.

(** X11.  The returned dictionary does not depend on the order of the
    targets or on how often a target is named: two lists with the same
    members give the same dictionary, and [apply] comes back for the one
    when it does for the other. *)
Theorem target_order_irrelevant (n : nat) (m : gmap string (list string))
    (targets targets' : list string) (self s1 : t)
    (pd : gmap string (list (list string))) :
  (∀ t0, t0 ∈ targets ↔ t0 ∈ targets') →
  apply n m targets self = Ok (s1, pd) →
  ∃ s2, apply n m targets' self = Ok (s2, pd).
Proof.
  intros Hsame (a & Ha & -> & ->)%apply_Ok.
  destruct (apply_loop_Ok n m targets' self) as [b Hb].
  { intros t0 Hin%Hsame.
    destruct (apply_loop_entry n m targets self a t0 Ha Hin init)
      as (r & Hr & _). by exists r. }
  eexists. apply apply_Ok. exists b. split; [done|]. split; [done|].
  apply map_eq. intros k.
  pose proof (apply_loop_path_dictionary n m targets self) as Hpa.
  pose proof (apply_loop_path_dictionary n m targets' self) as Hpb.
  rewrite Ha in Hpa. rewrite Hb in Hpb. simpl in Hpa, Hpb.
  destruct Hpa as (Houta & _). destruct Hpb as (Houtb & _).
  destruct (decide (k ∈ targets)) as [Hin|Hout].
  - destruct (apply_loop_entry n m targets self a k Ha Hin init)
      as (r & Hr & ->).
    destruct (apply_loop_entry n m targets' self b k Hb
                ltac:(by apply Hsame) init) as (r' & Hr' & ->).
    congruence.
  - rewrite Houta by done. rewrite Houtb; [done|]. by rewrite <- Hsame.
Qed.

Lemma target_order_irrelevant_witness :
  (∀ t0, t0 ∈ ["B"; "D"] ↔ t0 ∈ ["D"; "B"; "D"])
  ∧ apply 3 (BatchHistory.apply diamond) ["B"; "D"] init
    = Ok (Self diamond_graph [["A"; "B"; "D"]; ["A"; "C"; "D"]] ["A"; "A"]
               (<["D" := [["A"; "B"; "D"]; ["A"; "C"; "D"]]]>
                  {["B" := [["A"; "B"]]]})
               [(INFO, "Reconstructing Paths");
                (INFO, "Finished reconstructing paths.")],
          <["D" := [["A"; "B"; "D"]; ["A"; "C"; "D"]]]>
            {["B" := [["A"; "B"]]]})
  ∧ ∃ s2, apply 3 (BatchHistory.apply diamond) ["D"; "B"; "D"] init
          = Ok (s2, <["D" := [["A"; "B"; "D"]; ["A"; "C"; "D"]]]>
                      {["B" := [["A"; "B"]]]}).
Proof.
  assert (∀ t0, t0 ∈ ["B"; "D"] ↔ t0 ∈ ["D"; "B"; "D"]) as Hsame.
  { intros t0. rewrite !elem_of_cons, elem_of_nil. tauto. }
  assert (apply 3 (BatchHistory.apply diamond) ["B"; "D"] init
    = Ok (Self diamond_graph [["A"; "B"; "D"]; ["A"; "C"; "D"]] ["A"; "A"]
               (<["D" := [["A"; "B"; "D"]; ["A"; "C"; "D"]]]>
                  {["B" := [["A"; "B"]]]})
               [(INFO, "Reconstructing Paths");
                (INFO, "Finished reconstructing paths.")],
          <["D" := [["A"; "B"; "D"]; ["A"; "C"; "D"]]]>
            {["B" := [["A"; "B"]]]})) as Hrun
    by (vm_compute; reflexivity).
  split; [exact Hsame|]. split; [exact Hrun|].
  exact (target_order_irrelevant _ _ _ _ _ _ _ Hsame Hrun).
Defined.

(** ** The search by itself *)

(** X12.  On a graph that names only its own nodes as neighbours, cyclic
    or not, the search from a node of the graph comes back without raising
    as soon as the depth bound is above the number of nodes: marking the
    nodes of the current path as visited keeps it from running in
    circles. *)
Theorem search_always_returns (n : nat) (s d : string)
    (g : gmap string (list string)) (self : t) :
  closed g → is_Some (g !! s) → size g < n →
  ∃ self', determine_all_paths n s d g self = Ok self'.
Proof.
  intros Hcl Hs Hn.
  pose proof (determine_all_paths_outcome n s d g self) as Hout.
  destruct (determine_all_paths n s d g self) as [self'| |].
  - by exists self'.
  - exfalso. by apply Hout.
  - exfalso. by apply Hout.
Qed.

Lemma search_always_returns_witness :
  closed ring ∧ is_Some (ring !! "A") ∧ size ring < 3
  ∧ ∃ self', determine_all_paths 3 "A" "B" ring init = Ok self'.
Proof.
  assert (closed ring) as Hcl.
  { intros u l v Hu Hv. unfold ring in *.
    apply lookup_insert_Some in Hu as [[<- <-]|[_ Hu]].
    - apply list_elem_of_singleton in Hv as ->. by eexists.
    - apply lookup_singleton_Some in Hu as [<- <-].
      apply list_elem_of_singleton in Hv as ->. by eexists. }
  assert (is_Some (ring !! "A")) as Hs by (by eexists).
  assert (size ring < 3) as Hn by (vm_compute; lia).
  split; [exact Hcl|]. split; [exact Hs|]. split; [exact Hn|].
  exact (search_always_returns 3 "A" "B" ring init Hcl Hs Hn).
Defined.

Lemma add_paths_prefix (ps found : list (list string)) :
  ps `prefix_of` add_paths ps found.
Proof.
  revert ps. induction found as [|q found IH]; intros ps; [done|].
  simpl. etrans; [|apply IH]. unfold add_path.
  destruct (decide (q ∈ ps)); [done|]. by apply prefix_app_r.
Qed.

(** X13.  A call of the search that comes back has undone its own marks:
    [visited] is as before but for the entry of the node the call started
    at, which is cleared, and [path] is as before.  The search leaves
    [edges], [sources] and the logger alone, and [paths] can only have
    paths added at the end. *)
Theorem search_restores_state (n : nat) (u d : string)
    (visited visited' : gmap string bool) (path path' : list string)
    (g : gmap string (list string)) (self self' : t) :
  determine_all_paths_util n u d visited path g self
  = Ok (visited', path', self') →
  visited' = <[u := false]> visited ∧ path' = path
  ∧ edges self' = edges self ∧ sources self' = sources self
  ∧ logger self' = logger self
  ∧ paths self `prefix_of` paths self'.
Proof.
  intros Hrun.
  pose proof (determine_all_paths_util_outcome n u d visited path g self)
    as Hout.
  rewrite Hrun in Hout. destruct Hout as (-> & -> & Hs & _).
  split_and!; [done|done|by rewrite Hs|by rewrite Hs|by rewrite Hs|].
  destruct (determine_all_paths_util_found n u d visited path g)
    as [[found Hfound]|Hnone].
  - destruct (Hfound self) as (r & Hr & Hp). rewrite Hrun in Hr.
    injection Hr as <-. simpl in Hp. rewrite Hp. apply add_paths_prefix.
  - by apply Hnone in Hrun.
Qed.

Lemma search_restores_state_witness :
  determine_all_paths_util 3 "A" "D" ((λ _, false) <$> diamond_graph) []
    diamond_graph init
  = Ok ((λ _, false) <$> diamond_graph, [],
        set_paths [["A"; "B"; "D"]; ["A"; "C"; "D"]] init)
  ∧ (λ _, false) <$> diamond_graph
    = <["A" := false]> ((λ _, false) <$> diamond_graph)
  ∧ ([] : list string) = []
  ∧ edges (set_paths [["A"; "B"; "D"]; ["A"; "C"; "D"]] init) = edges init
  ∧ sources (set_paths [["A"; "B"; "D"]; ["A"; "C"; "D"]] init)
    = sources init
  ∧ logger (set_paths [["A"; "B"; "D"]; ["A"; "C"; "D"]] init)
    = logger init
  ∧ paths init
    `prefix_of` paths (set_paths [["A"; "B"; "D"]; ["A"; "C"; "D"]] init).
Proof.
  assert (determine_all_paths_util 3 "A" "D"
            ((λ _, false) <$> diamond_graph) [] diamond_graph init
    = Ok ((λ _, false) <$> diamond_graph, [],
          set_paths [["A"; "B"; "D"]; ["A"; "C"; "D"]] init)) as Hrun
    by (vm_compute; reflexivity).
  split; [exact Hrun|].
  exact (search_restores_state _ _ _ _ _ _ _ _ _ _ Hrun).
Defined.

(** The search from a source of the diamond, twice. *)
Lemma determine_all_paths_again_witness :
  determine_all_paths 3 "A" "D" diamond_graph init
  = Ok (set_paths [["A"; "B"; "D"]; ["A"; "C"; "D"]] init)
  ∧ determine_all_paths 3 "A" "D" diamond_graph
      (set_paths [["A"; "B"; "D"]; ["A"; "C"; "D"]] init)
    = Ok (set_paths [["A"; "B"; "D"]; ["A"; "C"; "D"]] init).
Proof.
  assert (determine_all_paths 3 "A" "D" diamond_graph init
    = Ok (set_paths [["A"; "B"; "D"]; ["A"; "C"; "D"]] init)) as Hrun
    by (vm_compute; reflexivity).
  split; [exact Hrun|].
  exact (determine_all_paths_again _ _ _ _ _ _ Hrun).
Defined.

(** The search raises nothing but a [KeyError] for a node that the graph
    does not have. *)
Lemma determine_all_paths_util_raises (n : nat) (u d : string)
    (visited : gmap string bool) (path : list string)
    (g : gmap string (list string)) (self : t) :
  (∀ k, is_Some (g !! k) → is_Some (visited !! k)) →
  outcome (λ _, True) (λ e, ∃ k, e = KeyError k ∧ g !! k = None) True
          (determine_all_paths_util n u d visited path g self).
Proof.
  revert u visited path self.
  induction n as [|n IH]; intros u visited path self Hdom; simpl; [done|].
  eapply (outcome_bind
    (λ r, r.1 = (<[u:=true]> visited, path ++ [u]))).
  - case_decide; [by case_decide|].
    destruct (g !! u) as [adjacent|] eqn:Hu; simpl; [|by exists u].
    apply for_each_outcome; [done|].
    intros i [[v p] s] _ [= -> ->].
    destruct (<[u:=true]> visited !! i) as [[|]|] eqn:Hvi; simpl; [done| |].
    + eapply outcome_mono;
        [apply outcome_and;
          [apply IH|apply determine_all_paths_util_outcome]
        | | |done].
      * intros k Hk. destruct (decide (u = k)) as [->|Hne].
        -- rewrite lookup_insert_eq. by eexists.
        -- rewrite lookup_insert_ne by done. by apply Hdom.
      * intros [[v' p'] s'] (_ & -> & -> & _). simpl.
        by rewrite (insert_id _ _ _ Hvi).
      * intros e [He _]. exact He.
    + exists i. split; [done|]. apply eq_None_not_Some. intros Hk.
      destruct (decide (u = i)) as [->|Hne].
      * by rewrite lookup_insert_eq in Hvi.
      * rewrite lookup_insert_ne in Hvi by done.
        apply Hdom in Hk as [? ?]. congruence.
  - intros [[v p] s] [= -> ->]. rewrite pop_snoc. by simpl.
Qed.

(** X15.  Whatever the graph, the search raises nothing but a [KeyError],
    and only for a node that is not a key of the graph: the pop of [path]
    never meets an empty list, and no [KeyError] names a node the graph
    has. *)
Theorem search_raises_only_missing_node (n : nat) (s d : string)
    (g : gmap string (list string)) (self : t) (e : exn) :
  determine_all_paths n s d g self = Raise e →
  ∃ k, e = KeyError k ∧ g !! k = None.
Proof.
  unfold determine_all_paths. intros Hrun.
  pose proof (determine_all_paths_util_raises n s d
                ((λ _, false) <$> g) [] g self) as Hout.
  destruct (determine_all_paths_util n s d _ [] g self)
    as [[[v p] s']| |]; simpl in *; [done| |done].
  injection Hrun as ->. apply Hout.
  intros k [l Hk]. rewrite lookup_fmap, Hk. by eexists.
Qed.

Lemma search_raises_only_missing_node_witness :
  determine_all_paths 2 "A" "C" {["A" := ["B"]]} init
  = Raise (KeyError "B")
  ∧ ∃ k, KeyError "B" = KeyError k
         ∧ ({["A" := ["B"]]} : gmap string (list string)) !! k = None.
Proof.
  assert (determine_all_paths 2 "A" "C" {["A" := ["B"]]} init
          = Raise (KeyError "B")) as Hrun by (vm_compute; reflexivity).
  split; [exact Hrun|].
  exact (search_raises_only_missing_node _ _ _ _ _ _ Hrun).
Defined.

(** ** An empty list of paths *)

(** When no key of the lineage map has an empty list, the expansion from a
    key records at least one source. *)
Lemma add_edges_some_source (n : nat) (m : gmap string (list string))
    (t0 : string) (self : t) :
  (∀ k l, m !! k = Some l → l ≠ []) →
  is_Some (m !! t0) →
  outcome (λ self', ∃ x, x ∈ sources self') (λ _, True) True
          (add_edges n m t0 self).
Proof.
  intros Hne. revert t0 self.
  induction n as [|n IH]; intros t0 self Hkey; simpl; [done|].
  destruct (m !! t0) as [l|] eqn:Hl; [|by destruct Hkey].
  destruct l as [|x l]; [by apply Hne in Hl|].
  rewrite for_each_cons. eapply outcome_bind.
  - simpl. case_decide as Hx.
    + by apply IH.
    + simpl. exists x. apply elem_of_app. right. left.
  - intros s [y Hy].
    eapply (outcome_mono (λ s', y ∈ sources s') _ (λ _, True) _ True);
      [|intros a Ha; by exists y|done|done].
    apply for_each_outcome; [done|].
    intros z a _ Ha. simpl. case_decide.
    + eapply outcome_mono; [apply add_edges_grows|simpl|done|done].
      intros a' (_ & Hsrc & _). by apply Hsrc.
    + simpl. apply elem_of_app. by left.
Qed.

Lemma linked_snoc (E : string → string → Prop) (p : list string)
    (b a : string) :
  linked E p → last p = Some b → E b a → linked E (p ++ [a]).
Proof.
  induction p as [|x p IH]; [done|]. intros Hp Hlast Hba.
  destruct p as [|y p].
  - injection Hlast as ->. by split.
  - destruct Hp as [Hxy Hp]. split; [done|].
    apply IH; [done| |done]. by rewrite last_cons_cons in Hlast.
Qed.

Lemma tc_lineage_chain (m : gmap string (list string)) (t0 s : string) :
  tc (derived_from m) t0 s →
  ∃ w, w ≠ [] ∧ last (s :: w) = Some t0 ∧ lineage_chain m (s :: w).
Proof.
  induction 1 as [x y Hxy|x y z Hxy _ (w & Hne & Hlast & Hchain)].
  - exists [x]. by split_and!.
  - exists (w ++ [x]). split_and!.
    + by destruct w.
    + by rewrite app_comm_cons, last_snoc.
    + rewrite app_comm_cons. by eapply linked_snoc.
Qed.

(** X16.  With a lineage map in which no key has an empty list, as
    [BatchHistory.apply] builds it, the list of paths that [apply] returns
    for a target is empty exactly when the target has no entry in the
    lineage map. *)
Theorem no_path_iff_unknown (n : nat) (m : gmap string (list string))
    (targets : list string) (self self' : t)
    (pd : gmap string (list (list string))) (t0 : string) :
  (∀ k l, m !! k = Some l → l ≠ []) →
  apply n m targets self = Ok (self', pd) →
  t0 ∈ targets →
  default [] (pd !! t0) = [] ↔ m !! t0 = None.
Proof.
  intros Hne (a & Ha & -> & ->)%apply_Ok Hin.
  destruct (apply_loop_entry n m targets self a t0 Ha Hin init)
    as (s1 & Hs1 & ->). simpl.
  pose proof (apply_one_paths n m t0 init s1 Hs1) as Hpaths.
  split.
  - intros Hempty. apply eq_None_not_Some. intros Hkey.
    unfold apply_one in Hs1. apply bind_Ok in Hs1 as (e1 & He1 & _).
    pose proof (expand_sources n m t0 init e1 He1) as Hsrc.
    unfold expand in He1.
    match type of He1 with add_edges _ _ _ ?s = _ =>
      pose proof (add_edges_some_source n m t0 s Hne Hkey) as Hsome end.
    rewrite He1 in Hsome. destruct Hsome as [x Hx].
    apply Hsrc in Hx as [Hreach Hnone].
    destruct (tc_lineage_chain m t0 x Hreach) as (w & Hw & Hlast & Hchain).
    assert (x :: w ∈ paths s1) as Hq.
    { apply Hpaths. by exists x, w. }
    rewrite Hempty in Hq. by apply elem_of_nil in Hq.
  - intros Hnone. destruct (paths s1) as [|q ps] eqn:Hps; [done|].
    exfalso. assert (q ∈ q :: ps) as Hq by left.
    apply Hpaths in Hq as (s & w & -> & Hw & _ & Hlast & Hchain).
    apply (lineage_chain_tc m t0 s w Hw Hlast) in Hchain.
    apply derived_from_key in Hchain as [? ?]. congruence.
Qed.

Lemma BatchHistory_apply_nonempty (df : list BatchHistory.row)
    (k : string) (l : list string) :
  BatchHistory.apply df !! k = Some l → l ≠ [].
Proof.
  rewrite BatchHistory_apply_lookup.
  destruct (froms_of k df); [done|]. by intros [= <-].
Qed.

Lemma no_path_iff_unknown_witness :
  (∀ k l, BatchHistory.apply diamond !! k = Some l → l ≠ [])
  ∧ apply 3 (BatchHistory.apply diamond) ["X"; "D"] init
    = Ok (Self diamond_graph [["A"; "B"; "D"]; ["A"; "C"; "D"]] ["A"; "A"]
               (<["D" := [["A"; "B"; "D"]; ["A"; "C"; "D"]]]>
                  {["X" := []]})
               [(INFO, "Reconstructing Paths");
                (ERROR, "X not found in the Batch dictionary.");
                (INFO, "Finished reconstructing paths.")],
          <["D" := [["A"; "B"; "D"]; ["A"; "C"; "D"]]]> {["X" := []]})
  ∧ "X" ∈ ["X"; "D"]
  ∧ (default [] ((<["D" := [["A"; "B"; "D"]; ["A"; "C"; "D"]]]>
                    ({["X" := []]} : gmap string (list (list string))))
                 !! "X") = []
     ↔ BatchHistory.apply diamond !! "X" = None).
Proof.
  assert (∀ k l, BatchHistory.apply diamond !! k = Some l → l ≠ []) as Hne
    by apply BatchHistory_apply_nonempty.
  assert (apply 3 (BatchHistory.apply diamond) ["X"; "D"] init
    = Ok (Self diamond_graph [["A"; "B"; "D"]; ["A"; "C"; "D"]] ["A"; "A"]
               (<["D" := [["A"; "B"; "D"]; ["A"; "C"; "D"]]]>
                  {["X" := []]})
               [(INFO, "Reconstructing Paths");
                (ERROR, "X not found in the Batch dictionary.");
                (INFO, "Finished reconstructing paths.")],
          <["D" := [["A"; "B"; "D"]; ["A"; "C"; "D"]]]> {["X" := []]}))
    as Hrun by (vm_compute; reflexivity).
  assert ("X" ∈ ["X"; "D"]) as Hin by left.
  split; [exact Hne|]. split; [exact Hrun|]. split; [exact Hin|].
  exact (no_path_iff_unknown _ _ _ _ _ _ _ Hne Hrun Hin).
Defined.

(** The diamond with a ring of two batches next to it: the ring is not in
    the ancestry of D, and the reconstruction for D comes back. *)
Lemma reconstruction_returns_iff_witness :
  (∃ n r, apply n (BatchHistory.apply diamond_and_ring) ["D"] init = Ok r)
  ∧ ∀ t0 c, t0 ∈ ["D"] →
            rtc (derived_from (BatchHistory.apply diamond_and_ring)) t0 c →
            ¬ tc (derived_from (BatchHistory.apply diamond_and_ring)) c c.
Proof.
  assert (∃ n r, apply n (BatchHistory.apply diamond_and_ring) ["D"] init
                 = Ok r) as Hrun.
  { exists 3. eexists. vm_compute. reflexivity. }
  split; [exact Hrun|].
  exact (proj1 (reconstruction_returns_iff
                  (BatchHistory.apply diamond_and_ring) ["D"] init) Hrun).
Defined.

(** ** How often a source is recorded *)








